(** * Conway's Game of Life on a torus: the simulation core

    A shallow embedding of the simulation engine of the script (coordinate
    codec, the four cell sets, [simulate], [insertCell], [insertCellPattern],
    [resetGame]) and the properties of the specification checked against it.
    The repository holds three versions of the script; the embedding follows
    the latest one, the version with the doc comments and the resize handler,
    in which [neighborsCount] and the birth branch of [simulate] wrap the
    neighbour coordinates.

    Modelling conventions.
    - A JavaScript [Number] holding an integer and a [BigInt] are both [Z].
      Double arithmetic is exact on integers below 2^53 in magnitude, which
      covers every coordinate the program computes for a grid that fits a
      screen; [%] is the truncated remainder [Z.rem]; the [BigInt] operators
      [<<], [>>], [|], [&] are [Z.shiftl], [Z.shiftr], [Z.lor], [Z.land]
      (two's complement, unbounded).
    - A [Set] object is the list of its keys in insertion order; the four
      global variables hold references into a heap of such objects, so that
      [potentialCells = potentialCellsNext] makes two names of one object.
    - [for (const cell of s)] visits the keys of [s] by index, including keys
      appended to [s] while the loop runs.
    - [width] and [height] are parameters: the resize handler reassigns them
      and keeps the sets, so a theorem about every state covers a resize.
    - Drawing and label updates only read the state: [simulate], [insertCell]
      and [resetGame] leave them out, and [drawCells] is modelled on its own
      by the rectangles it fills.
    - The [e] key takes the outcomes of [Math.random()] as a function of the
      position; the timer and the DOM handlers of the user interface are not
      modelled. *)

From Stdlib Require Import ZArith Lia String Ascii.
From stdpp Require Import base list numbers.

Local Open Scope Z_scope.

(** ** Set objects and the heap *)

Definition Set_has (s : list Z) (k : Z) : bool := bool_decide (k ∈ s).

Definition Set_add (k : Z) (s : list Z) : list Z :=
  if Set_has s k then s else s ++ [k].

Definition deref (h : list (list Z)) (r : nat) : list Z := default [] (h !! r).

Definition heap_add (r : nat) (k : Z) (h : list (list Z)) : list (list Z) :=
  alter (Set_add k) r h.

Record state := State {
  heap : list (list Z);
  activeCells : nat;
  activeCellsNext : nat;
  potentialCells : nat;
  potentialCellsNext : nat;
  generation : Z
}.

Definition set_heap (h : list (list Z)) (st : state) : state :=
  {| heap := h;
     activeCells := activeCells st;
     activeCellsNext := activeCellsNext st;
     potentialCells := potentialCells st;
     potentialCellsNext := potentialCellsNext st;
     generation := generation st |}.

(** [activeCells.add(k)], [activeCellsNext.add(k)], [potentialCellsNext.add(k)] *)
Definition activeCells_add (k : Z) (st : state) : state :=
  set_heap (heap_add (activeCells st) k (heap st)) st.

Definition activeCellsNext_add (k : Z) (st : state) : state :=
  set_heap (heap_add (activeCellsNext st) k (heap st)) st.

Definition potentialCellsNext_add (k : Z) (st : state) : state :=
  set_heap (heap_add (potentialCellsNext st) k (heap st)) st.

(** The contents of the four sets of a state. *)
Definition active (st : state) : list Z := deref (heap st) (activeCells st).
Definition activeNext (st : state) : list Z := deref (heap st) (activeCellsNext st).
Definition potential (st : state) : list Z := deref (heap st) (potentialCells st).
Definition potentialNext (st : state) : list Z := deref (heap st) (potentialCellsNext st).

(** The module's initial state: four distinct empty sets, generation 0. *)
Definition initial : state :=
  {| heap := [[]; []; []; []];
     activeCells := 0; activeCellsNext := 1;
     potentialCells := 2; potentialCellsNext := 3;
     generation := 0 |}.

(** [resetGame]: four fresh sets. *)
Definition resetGame (st : state) : state :=
  let n := length (heap st) in
  {| heap := heap st ++ [[]; []; []; []];
     activeCells := n;
     activeCellsNext := S n;
     potentialCells := S (S n);
     potentialCellsNext := S (S (S n));
     generation := 0 |}.

(** The two nested loops [for ny = -1..1; for nx = -1..1]. *)
Definition span : list Z := [-1; 0; 1].

Definition for_ny_nx (f : Z → Z → state → state) (st : state) : state :=
  foldl (λ st ny, foldl (λ st nx, f nx ny st) st span) st span.

(** The keys a run of the two nested loops adds, in order. *)
Definition neighbourhood (f : Z → Z → Z) : list Z :=
  ny ← span; nx ← span; [f nx ny].

(** The four variables name allocated objects; the two active buffers are
    distinct objects and neither is one of the potential buffers.  The two
    potential variables may name the same object. *)
Record wf (st : state) : Prop := Wf {
  wf_ac : (activeCells st < length (heap st))%nat;
  wf_an : (activeCellsNext st < length (heap st))%nat;
  wf_pc : (potentialCells st < length (heap st))%nat;
  wf_pn : (potentialCellsNext st < length (heap st))%nat;
  wf_ac_an : activeCells st ≠ activeCellsNext st;
  wf_ac_pc : activeCells st ≠ potentialCells st;
  wf_ac_pn : activeCells st ≠ potentialCellsNext st;
  wf_an_pc : activeCellsNext st ≠ potentialCells st;
  wf_an_pn : activeCellsNext st ≠ potentialCellsNext st
}.

(** While the loop of [simulate] runs, both potential variables name the
    object that is being iterated. *)
Definition looping (st : state) : Prop :=
  wf st ∧ potentialCells st = potentialCellsNext st.

(** What a single [add] does to the four views. *)
Record Added (st st' : state) (A N P : list Z) : Prop := MkAdded {
  added_wf : wf st';
  added_ac : activeCells st' = activeCells st;
  added_an : activeCellsNext st' = activeCellsNext st;
  added_pc : potentialCells st' = potentialCells st;
  added_pn : potentialCellsNext st' = potentialCellsNext st;
  added_gen : generation st' = generation st;
  added_active : active st' = A;
  added_next : activeNext st' = N;
  added_potential : potentialNext st' = P
}.

Definition potentialNeighborOffsets : list (Z * Z) :=
  [(1, 1); (0, 1); (1, 0); (-1, -1); (0, -1); (-1, 0); (1, -1); (-1, 1)].

Section Grid.

Variables width height : Z.

(** ** Coordinate codec *)

Definition wrapCoord (x y : Z) : Z * Z :=
  let wrappedX := Z.rem (Z.rem x width + width) width in
  let wrappedY := Z.rem (Z.rem y height + height) height in
  (wrappedX, wrappedY).

Definition packCoord (x y : Z) : Z := Z.lor (Z.shiftl y 32) x.

Definition unpackCoord (packed : Z) : Z * Z :=
  let x := Z.land packed 0xffffffff in
  let y := Z.shiftr packed 32 in
  wrapCoord x y.

(** ** Rule engine *)

Definition neighborsCount (st : state) (cx cy : Z) : Z :=
  foldl (λ count '(ox, oy),
           let '(nx, ny) := wrapCoord (cx + ox) (cy + oy) in
           let potentialNeighbor := packCoord nx ny in
           if Set_has (active st) potentialNeighbor then count + 1 else count)
        0 potentialNeighborOffsets.

(** The death branch packs the raw offsets. *)
Definition stimulate (x y : Z) (st : state) : state :=
  for_ny_nx (λ nx ny, potentialCellsNext_add (packCoord (x + nx) (y + ny))) st.

(** The birth branch wraps before packing. *)
Definition stimulateWrapped (x y : Z) (st : state) : state :=
  for_ny_nx (λ nx ny st,
               let '(wx, wy) := wrapCoord (x + nx) (y + ny) in
               potentialCellsNext_add (packCoord wx wy) st) st.

(** The body of the [for (const cell of potentialCells)] loop. *)
Definition visit (cell : Z) (st : state) : state :=
  let '(x, y) := unpackCoord cell in
  let numNeighbors := neighborsCount st x y in
  if Set_has (active st) cell then
    if negb (numNeighbors =? 2) && negb (numNeighbors =? 3)
    then stimulate x y st
    else activeCellsNext_add cell st
  else if numNeighbors =? 3 then
    stimulateWrapped x y (activeCellsNext_add cell st)
  else st.

(** The loop itself: the iterator is an index into the live set object. *)
Fixpoint forOf (fuel i : nat) (st : state) : option state :=
  match fuel with
  | O => None
  | S fuel' =>
      match potential st !! i with
      | None => Some st
      | Some cell => forOf fuel' (S i) (visit cell st)
      end
  end.

(** The three assignments that open [simulate]; [new Set()] extends the heap. *)
Definition promote (st : state) : state :=
  {| heap := heap st ++ [[]];
     activeCells := activeCellsNext st;
     activeCellsNext := length (heap st);
     potentialCells := potentialCellsNext st;
     potentialCellsNext := potentialCellsNext st;
     generation := generation st |}.

(** [generation++] *)
Definition bump (st : state) : state :=
  {| heap := heap st;
     activeCells := activeCells st;
     activeCellsNext := activeCellsNext st;
     potentialCells := potentialCells st;
     potentialCellsNext := potentialCellsNext st;
     generation := generation st + 1 |}.

Definition simulateFuel (fuel : nat) (st : state) : option state :=
  bump <$> forOf fuel 0 (promote st).

(** Every key the loop can append is the packing of a pair in
    [-1, width] x [-1, height]; this bounds the number of iterations. *)
Definition candidates : list Z :=
  b ← seqZ (-1) (height + 2); a ← seqZ (-1) (width + 2); [packCoord a b].

Definition gas (st : state) : nat :=
  S (length (potentialNext st) + length candidates).

(** [simulate] with the bound above: on a grid of positive dimensions the
    loop ends before the bound is reached, and a larger bound gives the same
    state. *)
Definition simulate (st : state) : option state := simulateFuel (gas st) st.

(** ** Mutation API *)

Definition insertCell (x y : Z) (st : state) : state :=
  let cell := packCoord x y in
  let st := activeCells_add cell st in
  let st := activeCellsNext_add cell st in
  for_ny_nx (λ nx ny, potentialCellsNext_add (packCoord (x + nx) (y + ny))) st.

Fixpoint insertLine (x y c : Z) (line : string) (st : state) : state :=
  match line with
  | EmptyString => st
  | String char rest =>
      insertLine x y (c + 1) rest
        (if Ascii.eqb char "#"%char then insertCell (x + c) y st else st)
  end.

Fixpoint insertRows (x y l : Z) (pattern : list string) (st : state) : state :=
  match pattern with
  | [] => st
  | line :: rest => insertRows x y (l + 1) rest (insertLine x (y + l) 0 line st)
  end.

Definition insertCellPattern (x y : Z) (pattern : list string) (st : state) : state :=
  insertRows x y 0 pattern st.

(** [n] calls of [simulate] in a row. *)
Fixpoint steps (n : nat) (st : state) : option state :=
  match n with
  | O => Some st
  | S n' => st' ← simulate st; steps n' st'
  end.

(** ** The rule of the specification and the invariants of the loop *)

(** The rule in the words of the specification: a cell is alive in the next
    generation when it is active with 2 or 3 live neighbours, or inactive
    with exactly 3. *)
Definition lives (st : state) (cell : Z) : Prop :=
  let '(x, y) := unpackCoord cell in
  let n := neighborsCount st x y in
  (cell ∈ active st ∧ (n = 2 ∨ n = 3)) ∨ ((cell ∉ active st) ∧ n = 3).

(** The loop invariant relative to the state [st0] at loop entry: nothing
    but the next active set (whose content is [N]) and the iterated set
    changes, and the iterated set only grows, by distinct candidate keys. *)
Record Inv (st0 : state) (N : list Z) (st : state) : Prop := MkInv {
  inv_ac : activeCells st = activeCells st0;
  inv_an : activeCellsNext st = activeCellsNext st0;
  inv_pc : potentialCells st = potentialCells st0;
  inv_pn : potentialCellsNext st = potentialCellsNext st0;
  inv_gen : generation st = generation st0;
  inv_len : length (heap st) = length (heap st0);
  inv_active : active st = active st0;
  inv_next : activeNext st = N;
  inv_grow : ∃ extra, potentialNext st = potentialNext st0 ++ extra
                      ∧ NoDup extra ∧ ∀ k, k ∈ extra → k ∈ candidates
}.

(** The key the birth branch packs for the offset [(nx, ny)]. *)
Definition wrappedKey (x y nx ny : Z) : Z :=
  let '(wx, wy) := wrapCoord (x + nx) (y + ny) in packCoord wx wy.

(** The keys a visit of [cell] adds to the next potential set, in order. *)
Definition stimulus (st : state) (cell : Z) : list Z :=
  let '(x, y) := unpackCoord cell in
  let numNeighbors := neighborsCount st x y in
  if Set_has (active st) cell then
    if negb (numNeighbors =? 2) && negb (numNeighbors =? 3)
    then neighbourhood (λ nx ny, packCoord (x + nx) (y + ny))
    else []
  else if numNeighbors =? 3 then neighbourhood (wrappedKey x y)
  else [].

(** Whether a visit of [cell] adds it to the next active set. *)
Definition livesb (st : state) (cell : Z) : bool :=
  let '(x, y) := unpackCoord cell in
  let numNeighbors := neighborsCount st x y in
  if Set_has (active st) cell
  then negb (negb (numNeighbors =? 2) && negb (numNeighbors =? 3))
  else numNeighbors =? 3.

(** Two states in the loop of [simulate] whose three sets agree. *)
Record sameViews (st c : state) : Prop := MkSameViews {
  sv_left : looping st;
  sv_right : looping c;
  sv_active : active st = active c;
  sv_next : activeNext st = activeNext c;
  sv_potential : potentialNext st = potentialNext c
}.

(** What one call of [simulate] does to a well-formed state. *)
Record Simulated (st st' : state) : Prop := MkSimulated {
  sim_ac : activeCells st' = activeCellsNext st;
  sim_an : activeCellsNext st' = length (heap st);
  sim_pc : potentialCells st' = potentialCellsNext st;
  sim_pn : potentialCellsNext st' = potentialCellsNext st;
  sim_gen : generation st' = generation st + 1;
  sim_active : active st' = activeNext st;
  sim_alias : potentialNext st' = potential st';
  sim_grow : ∃ more, potential st' = potentialNext st ++ more;
  sim_rule : ∀ k, k ∈ activeNext st' ↔ k ∈ potential st' ∧ lives st' k;
  sim_wf : wf st'
}.

(** A key that is the packing of a pair inside the grid. *)
Definition encodesGridCell (k : Z) : Prop :=
  ∃ a b, 0 ≤ a < width ∧ 0 ≤ b < height ∧ k = packCoord a b.

End Grid.

(** The eight positions of the Moore neighbourhood, as offsets. *)
Definition mooreOffsets : list (Z * Z) :=
  [(-1, -1); (0, -1); (1, -1); (-1, 0); (1, 0); (-1, 1); (0, 1); (1, 1)].

(** The live toroidal Moore-neighbour count in the words of the
    specification: the number of the eight positions around [(x, y)], taken
    on the torus by the floored modulo on each axis, whose cell has its key
    in the current active set. *)
Definition mooreCount (width height : Z) (st : state) (x y : Z) : Z :=
  Z.of_nat
    (length
       (filter (λ o, packCoord ((x + o.1) mod width) ((y + o.2) mod height) ∈ active st)
               mooreOffsets)).

(** The states the program can be in: the initial one and whatever the
    entry points of the core make of it. *)
Inductive reachable (width height : Z) : state → Prop :=
  | reach_initial : reachable width height initial
  | reach_reset st : reachable width height st → reachable width height (resetGame st)
  | reach_insert x y st :
      reachable width height st → reachable width height (insertCell x y st)
  | reach_pattern x y pattern st :
      reachable width height st →
      reachable width height (insertCellPattern x y pattern st)
  | reach_simulate st st' :
      reachable width height st → simulate width height st = Some st' →
      reachable width height st'.

(** The four cells of a 2x2 block with top-left corner [(x, y)], inserted
    one by one. *)
Definition block (x y : Z) : list Z :=
  [packCoord x y; packCoord (x + 1) y; packCoord x (y + 1); packCoord (x + 1) (y + 1)].

Definition insertBlock (x y : Z) (st : state) : state :=
  insertCell (x + 1) (y + 1) (insertCell x (y + 1) (insertCell (x + 1) y (insertCell x y st))).

(** Three cells in an L on a 10x10 grid, inserted after a reset. *)
Definition corner : state :=
  insertCell 1 2 (insertCell 2 1 (insertCell 1 1 (resetGame initial))).

(** A single cell in the middle of a 10x10 grid, inserted after a reset. *)
Definition lonely : state := insertCell 3 3 (resetGame initial).

(** A 2x2 block away from the edges of a 10x10 grid. *)
Definition interior : state := insertBlock 4 4 (resetGame initial).

(** The sets of a state hold the block [(4, 4)..(5, 5)] and the potential
    keys its insertion left. *)
Record holdsBlock (st : state) : Prop := MkHoldsBlock {
  hb_wf : wf st;
  hb_active : active st = block 4 4;
  hb_next : activeNext st = block 4 4;
  hb_potential : potentialNext st = potentialNext interior
}.

(** A state like [corner] whose current active set holds one more key. *)
Definition cornerPlus : state := activeCells_add 77 corner.

(** ** The collaborators of the core: pattern stamps, random fill, drawing *)

(** The positions [insertCellPattern] passes to [insertCell], in order: the
    [#] characters of each row, row index as [y] offset, column as [x] offset. *)
Fixpoint lineCells (x y c : Z) (line : string) : list (Z * Z) :=
  match line with
  | EmptyString => []
  | String char rest =>
      (if Ascii.eqb char "#"%char then [(x + c, y)] else [])
      ++ lineCells x y (c + 1) rest
  end.

Fixpoint rowCells (x y l : Z) (pattern : list string) : list (Z * Z) :=
  match pattern with
  | [] => []
  | line :: rest => lineCells x (y + l) 0 line ++ rowCells x y (l + 1) rest
  end.

Fixpoint hashes (line : string) : nat :=
  match line with
  | EmptyString => 0
  | String char rest => (if Ascii.eqb char "#"%char then 1 else 0) + hashes rest
  end.

(** The number of [#] characters of a pattern. *)
Definition countMarks (pattern : list string) : nat := sum_list (hashes <$> pattern).

(** A run of [insertCell] calls. *)
Definition insertCells (cells : list (Z * Z)) (st : state) : state :=
  foldl (λ st '(x, y), insertCell x y st) st cells.

Definition keyOf (cell : Z * Z) : Z := packCoord cell.1 cell.2.

(** The pattern of the [o] key. *)
Definition gun : list string :=
  [ "                        #           ";
    "                      # #           ";
    "            ##      ##            ##";
    "           #   #    ##            ##";
    "##        #     #   ##              ";
    "##        #   # ##    # #           ";
    "          #     #       #           ";
    "           #   #                    ";
    "            ##                      " ]%string.

(** The [o] key: stamp the pattern at the mouse position. *)
Definition pressO (mousePos : Z * Z) (st : state) : state :=
  insertCellPattern mousePos.1 mousePos.2 gun st.

(** The bounds of the two loops of the [e] key:
    [Math.max(m - 25, 0) .. Math.min(m + 25, limit)], both ends included. *)
Definition fillRange (m limit : Z) : list Z :=
  seqZ (Z.max (m - 25) 0) (Z.min (m + 25) limit - Z.max (m - 25) 0 + 1).

(** The [e] key.  [skip x y] tells whether [Math.random() > 0.5] held when
    the loops reached [(x, y)]; the body is that of [insertCell]. *)
Definition randomFill (width height : Z) (skip : Z → Z → bool)
    (mousePos : Z * Z) (st : state) : state :=
  foldl (λ st y,
           foldl (λ st x, if skip x y then st else insertCell x y st)
                 st (fillRange mousePos.1 width))
        st (fillRange mousePos.2 height).

Definition CELL_SIZE : Z := 6.

(** [Math.floor(canvas.width / CELL_SIZE)] for a canvas dimension in pixels. *)
Definition gridSize (canvasDim : Z) : Z := canvasDim / CELL_SIZE.

(** The [fillRect] calls of [drawCells], as [(x, y, w, h)] in pixels. *)
Definition drawCells (width height : Z) (st : state) : list (Z * Z * Z * Z) :=
  (λ cell, let '(x, y) := unpackCoord width height cell in
           (x * CELL_SIZE, y * CELL_SIZE, CELL_SIZE, CELL_SIZE)) <$> active st.

(** The cell under a pixel offset: [Math.floor(offset / CELL_SIZE)]. *)
Definition mouseCell (offsetPx : Z) : Z := offsetPx / CELL_SIZE.

(** The positions the [e] key inserts, in order. *)
Definition fillCells (width height : Z) (skip : Z → Z → bool) (mousePos : Z * Z) :
    list (Z * Z) :=
  y ← fillRange mousePos.2 height;
  x ← fillRange mousePos.1 width;
  if skip x y then [] else [(x, y)].

(** ** Sets and heap cells *)

Lemma Set_has_true (s : list Z) (k : Z) : Set_has s k = true ↔ k ∈ s.
Proof. unfold Set_has. apply bool_decide_eq_true. Qed.

Lemma Set_has_false (s : list Z) (k : Z) : Set_has s k = false ↔ k ∉ s.
Proof. unfold Set_has. apply bool_decide_eq_false. Qed.

Lemma elem_of_Set_add (k x : Z) (s : list Z) : x ∈ Set_add k s ↔ x = k ∨ x ∈ s.
Proof.
  unfold Set_add. destruct (Set_has s k) eqn:E.
  - apply Set_has_true in E. split; [auto | intros [-> | ?]; done].
  - rewrite elem_of_app, list_elem_of_singleton. tauto.
Qed.

Lemma Set_add_present (k : Z) (s : list Z) : k ∈ s → Set_add k s = s.
Proof. intros H. unfold Set_add. apply Set_has_true in H. by rewrite H. Qed.

Lemma Set_add_absent (k : Z) (s : list Z) : k ∉ s → Set_add k s = s ++ [k].
Proof. intros H. unfold Set_add. apply Set_has_false in H. by rewrite H. Qed.

Lemma deref_heap_add_eq (h : list (list Z)) (r : nat) (k : Z) :
  (r < length h)%nat → deref (heap_add r k h) r = Set_add k (deref h r).
Proof.
  intros Hr. unfold deref, heap_add. rewrite list_lookup_alter_eq.
  destruct (lookup_lt_is_Some_2 h r Hr) as [s ->]. done.
Qed.

Lemma deref_heap_add_ne (h : list (list Z)) (r r' : nat) (k : Z) :
  r ≠ r' → deref (heap_add r k h) r' = deref h r'.
Proof. intros Hne. unfold deref, heap_add. by rewrite list_lookup_alter_ne. Qed.

Lemma length_heap_add (h : list (list Z)) (r : nat) (k : Z) :
  length (heap_add r k h) = length h.
Proof. apply length_alter. Qed.

Lemma deref_app_l (h h' : list (list Z)) (r : nat) :
  (r < length h)%nat → deref (h ++ h') r = deref h r.
Proof. intros Hr. unfold deref. by rewrite lookup_app_l. Qed.

Lemma deref_app_r (h h' : list (list Z)) (i : nat) :
  deref (h ++ h') (length h + i) = deref h' i.
Proof. unfold deref. by rewrite lookup_app_r, Nat.add_sub' by lia. Qed.

(** ** The coordinate codec *)

Section Codec.

Variables width height : Z.

Lemma rem_wrap (x w : Z) : 0 < w → Z.rem (Z.rem x w + w) w = x mod w.
Proof.
  intros Hw.
  assert (Hb : - w < Z.rem x w < w).
  { pose proof (Z.rem_bound_abs x w). lia. }
  rewrite Z.rem_mod_nonneg by lia.
  replace (Z.rem x w + w) with (Z.rem x w + 1 * w) by lia.
  rewrite Z_mod_plus_full.
  rewrite (Z.quot_rem' x w) at 2.
  replace (w * (x ÷ w) + Z.rem x w) with (Z.rem x w + (x ÷ w) * w) by lia.
  by rewrite Z_mod_plus_full.
Qed.

(** [wrapCoord] is the floored modulo on both axes. *)
Lemma wrapCoord_mod (x y : Z) :
  0 < width → 0 < height →
  wrapCoord width height x y = (x mod width, y mod height).
Proof. intros Hw Hh. unfold wrapCoord. by rewrite !rem_wrap. Qed.

Lemma wrapCoord_range (x y wx wy : Z) :
  0 < width → 0 < height →
  wrapCoord width height x y = (wx, wy) →
  0 ≤ wx < width ∧ 0 ≤ wy < height.
Proof.
  intros Hw Hh. rewrite wrapCoord_mod by done. intros [= <- <-].
  split; apply Z.mod_pos_bound; done.
Qed.

Lemma wrapCoord_id (x y : Z) :
  0 ≤ x < width → 0 ≤ y < height → wrapCoord width height x y = (x, y).
Proof.
  intros Hx Hy. rewrite wrapCoord_mod by lia. by rewrite !Z.mod_small.
Qed.

Lemma land_shifted_low (x y : Z) : 0 ≤ x < 2 ^ 32 → Z.land (y * 2 ^ 32) x = 0.
Proof.
  intros Hx. apply Z.bits_inj'. intros n Hn.
  rewrite Z.land_spec, Z.bits_0.
  destruct (Z_lt_ge_dec n 32).
  - by rewrite Z.mul_pow2_bits_low by lia.
  - rewrite (Z.bits_above_log2 x n); [apply andb_false_r | lia |].
    destruct (Z.eq_dec x 0) as [-> | ?]; [simpl; lia |].
    apply Z.lt_le_trans with 32; [| lia]. apply Z.log2_lt_pow2; lia.
Qed.

(** With [x] inside its 32-bit field the bitwise or is a plain sum. *)
Lemma packCoord_sum (x y : Z) : 0 ≤ x < 2 ^ 32 → packCoord x y = y * 2 ^ 32 + x.
Proof.
  intros Hx. unfold packCoord. rewrite Z.shiftl_mul_pow2 by lia.
  pose proof (land_shifted_low x y Hx) as H0.
  by rewrite (Z.add_nocarry_lxor _ _ H0), (Z.lxor_lor _ _ H0).
Qed.

Lemma packCoord_low (x y : Z) :
  0 ≤ x < 2 ^ 32 → Z.land (packCoord x y) 0xffffffff = x.
Proof.
  intros Hx. rewrite packCoord_sum by done. change 0xffffffff with (Z.ones 32).
  rewrite Z.land_ones by lia.
  rewrite Z.add_comm, Z_mod_plus_full. by apply Z.mod_small.
Qed.

Lemma packCoord_high (x y : Z) :
  0 ≤ x < 2 ^ 32 → Z.shiftr (packCoord x y) 32 = y.
Proof.
  intros Hx. rewrite packCoord_sum by done.
  rewrite Z.shiftr_div_pow2 by lia.
  rewrite Z.div_add_l by lia. rewrite Z.div_small by lia. lia.
Qed.

Lemma packCoord_inj (x y x' y' : Z) :
  0 ≤ x < 2 ^ 32 → 0 ≤ x' < 2 ^ 32 →
  packCoord x y = packCoord x' y' → x = x' ∧ y = y'.
Proof.
  intros Hx Hx' E. split.
  - rewrite <- (packCoord_low x y Hx), <- (packCoord_low x' y' Hx'). by rewrite E.
  - rewrite <- (packCoord_high x y Hx), <- (packCoord_high x' y' Hx'). by rewrite E.
Qed.

Lemma unpackCoord_packCoord (x y : Z) :
  0 ≤ x < 2 ^ 32 →
  unpackCoord width height (packCoord x y) = wrapCoord width height x y.
Proof.
  intros Hx. unfold unpackCoord. by rewrite packCoord_low, packCoord_high.
Qed.

End Codec.

(** ** The loop of [simulate] *)

Section Engine.

Variables width height : Z.
Hypothesis width_pos : 0 < width.
Hypothesis height_pos : 0 < height.

Abbreviation wrapCoord := (wrapCoord width height).
Abbreviation unpackCoord := (unpackCoord width height).
Abbreviation neighborsCount := (neighborsCount width height).
Abbreviation candidates := (candidates width height).
Abbreviation visit := (visit width height).
Abbreviation forOf := (forOf width height).
Abbreviation simulate := (simulate width height).
Abbreviation Inv := (Inv width height).
Abbreviation lives := (lives width height).
Abbreviation Simulated := (Simulated width height).

Lemma unpackCoord_range (k x y : Z) :
  unpackCoord k = (x, y) → 0 ≤ x < width ∧ 0 ≤ y < height.
Proof. unfold unpackCoord. by apply wrapCoord_range. Qed.

Lemma packCoord_candidate (a b : Z) :
  -1 ≤ a ≤ width → -1 ≤ b ≤ height → packCoord a b ∈ candidates.
Proof.
  intros Ha Hb. unfold candidates.
  apply list_elem_of_bind. exists b. split; [| apply elem_of_seqZ; lia].
  apply list_elem_of_bind. exists a. split; [| apply elem_of_seqZ; lia].
  apply list_elem_of_singleton. done.
Qed.

Lemma span_bound (n : Z) : n ∈ span → -1 ≤ n ≤ 1.
Proof. unfold span. rewrite !elem_of_cons, elem_of_nil. lia. Qed.

(** The neighbour count reads the current active set and nothing else. *)
Lemma neighborsCount_active (st st' : state) (cx cy : Z) :
  active st = active st' → neighborsCount st cx cy = neighborsCount st' cx cy.
Proof. intros E. unfold neighborsCount. by rewrite E. Qed.

Lemma lives_active (st st' : state) (cell : Z) :
  active st = active st' → lives st cell ↔ lives st' cell.
Proof.
  intros E. unfold lives. destruct (unpackCoord cell) as [x y].
  by rewrite (neighborsCount_active st st' x y E), E.
Qed.

Ltac span_mem :=
  unfold span; repeat first [apply list_elem_of_here | apply list_elem_of_further].

Lemma for_ny_nx_ind (I : state → Prop) (f : Z → Z → state → state) (st : state) :
  (∀ nx ny s, nx ∈ span → ny ∈ span → I s → I (f nx ny s)) →
  I st → I (for_ny_nx f st).
Proof.
  intros Hf H0. unfold for_ny_nx, span. simpl.
  repeat (apply Hf; [span_mem | span_mem |]).
  exact H0.
Qed.

Lemma Inv_refl (st0 : state) : Inv st0 (activeNext st0) st0.
Proof.
  split; try done. exists []. rewrite app_nil_r.
  split; [done | split; [constructor | intros k Hk; inv Hk]].
Qed.

Lemma Inv_potential_add (st0 st : state) (N : list Z) (k : Z) :
  looping st0 → Inv st0 N st → k ∈ candidates →
  Inv st0 N (potentialCellsNext_add k st).
Proof.
  intros [W Hal] I Hk. destruct I as [Ea En Ep Epn Eg El EA EN (extra & EP & ND & Sub)].
  destruct W.
  split; simpl; try done.
  - by rewrite length_heap_add.
  - unfold active in *. simpl. rewrite deref_heap_add_ne; [done | congruence].
  - unfold activeNext in *. simpl. rewrite deref_heap_add_ne; [done | congruence].
  - unfold potentialNext in *. simpl.
    rewrite deref_heap_add_eq by lia. rewrite EP.
    destruct (decide (k ∈ potentialNext st0 ++ extra)) as [Hin | Hnin].
    + exists extra. by rewrite Set_add_present.
    + exists (extra ++ [k]). rewrite Set_add_absent by done.
      rewrite app_assoc. split; [done |]. split.
      * apply list.NoDup_app. split; [done |]. split; [| apply NoDup_singleton].
        intros x Hx Hx'. apply list_elem_of_singleton in Hx' as ->.
        apply Hnin. apply elem_of_app. by right.
      * intros x [Hx | Hx]%elem_of_app; [by apply Sub |].
        by apply list_elem_of_singleton in Hx as ->.
Qed.

Lemma Inv_next_add (st0 st : state) (N : list Z) (k : Z) :
  looping st0 → Inv st0 N st →
  Inv st0 (Set_add k N) (activeCellsNext_add k st).
Proof.
  intros [W Hal] I. destruct I as [Ea En Ep Epn Eg El EA EN (extra & EP & ND & Sub)].
  destruct W.
  split; simpl; try done.
  - by rewrite length_heap_add.
  - unfold active in *. simpl. rewrite deref_heap_add_ne; [done | congruence].
  - unfold activeNext in *. simpl.
    rewrite deref_heap_add_eq by lia. by rewrite EN.
  - unfold potentialNext in *. simpl.
    rewrite deref_heap_add_ne by congruence. by exists extra.
Qed.

Lemma Inv_stimulate (st0 st : state) (N : list Z) (x y : Z) :
  looping st0 → Inv st0 N st → 0 ≤ x < width → 0 ≤ y < height →
  Inv st0 N (stimulate x y st).
Proof.
  intros L I Hx Hy. unfold stimulate. apply for_ny_nx_ind; [| done].
  intros nx ny s Hnx%span_bound Hny%span_bound Is.
  apply Inv_potential_add; [done | done |]. apply packCoord_candidate; lia.
Qed.

Lemma Inv_stimulateWrapped (st0 st : state) (N : list Z) (x y : Z) :
  looping st0 → Inv st0 N st →
  Inv st0 N (stimulateWrapped width height x y st).
Proof.
  intros L I. unfold stimulateWrapped. apply for_ny_nx_ind; [| done].
  intros nx ny s _ _ Is.
  destruct (wrapCoord (x + nx) (y + ny)) as [wx wy] eqn:E.
  apply wrapCoord_range in E as [? ?]; [| done | done].
  apply Inv_potential_add; [done | done |]. apply packCoord_candidate; lia.
Qed.

(** One iteration: the visited key joins the next active set exactly when
    the rule of the specification says so. *)
Lemma visit_spec (st0 st : state) (N : list Z) (cell : Z) :
  looping st0 → Inv st0 N st →
  ∃ N', Inv st0 N' (visit cell st)
        ∧ ∀ k, k ∈ N' ↔ k ∈ N ∨ (k = cell ∧ lives st0 cell).
Proof.
  intros L I.
  assert (EA : active st = active st0) by apply I.
  unfold visit. setoid_rewrite <- (lives_active st st0 cell EA). unfold lives.
  destruct (unpackCoord cell) as [x y] eqn:Eu.
  destruct (unpackCoord_range _ _ _ Eu) as [Hx Hy].
  set (n := neighborsCount st x y).
  destruct (Set_has (active st) cell) eqn:Eh.
  - apply Set_has_true in Eh.
    destruct (negb (n =? 2) && negb (n =? 3)) eqn:Ed.
    + exists N. split; [by apply Inv_stimulate |].
      apply andb_true_iff in Ed as [E2%negb_true_iff%Z.eqb_neq E3%negb_true_iff%Z.eqb_neq].
      intros k. split; [auto | intros [? | [_ [[_ [? | ?]] | [? _]]]]; done].
    + exists (Set_add cell N). split; [by apply Inv_next_add |].
      assert (n = 2 ∨ n = 3) as Hn.
      { apply andb_false_iff in Ed as [E%negb_false_iff%Z.eqb_eq | E%negb_false_iff%Z.eqb_eq]; auto. }
      intros k. rewrite elem_of_Set_add. split; [intros [-> | ?]; auto | intros [? | [-> _]]; auto].
  - apply Set_has_false in Eh.
    destruct (n =? 3) eqn:E3.
    + apply Z.eqb_eq in E3.
      exists (Set_add cell N). split.
      * apply Inv_stimulateWrapped; [done |]. by apply Inv_next_add.
      * intros k. rewrite elem_of_Set_add. split; [intros [-> | ?]; auto | intros [? | [-> _]]; auto].
    + apply Z.eqb_neq in E3. exists N. split; [done |].
      intros k. split; [auto | intros [? | [_ [[? _] | [_ ?]]]]; done].
Qed.

(** An inactive key whose neighbour count is not 3 triggers no action. *)
Lemma visit_idle (st : state) (cell : Z) :
  cell ∉ active st →
  (let '(x, y) := unpackCoord cell in neighborsCount st x y ≠ 3) →
  visit cell st = st.
Proof.
  intros Hin Hn. unfold visit. destruct (unpackCoord cell) as [x y].
  apply Set_has_false in Hin. rewrite Hin.
  apply Z.eqb_neq in Hn. by rewrite Hn.
Qed.

Lemma Inv_potential_length (st0 st : state) (N : list Z) :
  looping st0 → Inv st0 N st →
  (length (potential st) ≤ length (potentialNext st0) + length candidates)%nat.
Proof.
  intros [_ Hal] I. destruct I as [Ea En Ep Epn Eg El EA EN (extra & EP & ND & Sub)].
  unfold potential. rewrite Ep, Hal, <- Epn. fold (potentialNext st).
  rewrite EP, length_app.
  pose proof (submseteq_length _ _ (NoDup_submseteq _ _ ND Sub)). lia.
Qed.

Lemma Inv_potential_alias (st0 st : state) (N : list Z) :
  looping st0 → Inv st0 N st → potential st = potentialNext st.
Proof.
  intros [_ Hal] I. unfold potential, potentialNext.
  by rewrite (inv_pc _ _ _ _ _ I), (inv_pn _ _ _ _ _ I), Hal.
Qed.

Lemma Inv_looping (st0 st : state) (N : list Z) :
  looping st0 → Inv st0 N st → looping st.
Proof.
  intros [W Hal] I. destruct I as [Ea En Ep Epn Eg El _ _ _]. destruct W.
  split; [split |]; rewrite ?Ea, ?En, ?Ep, ?Epn, ?El; done.
Qed.

(** A visit only appends to the iterated set. *)
Lemma visit_appends (st0 st : state) (N : list Z) (cell : Z) :
  looping st0 → Inv st0 N st →
  ∃ more, potential (visit cell st) = potential st ++ more.
Proof.
  intros L I. pose proof (Inv_looping _ _ _ L I) as L'.
  destruct (visit_spec st st (activeNext st) cell L' (Inv_refl st)) as (N' & I' & _).
  destruct (inv_grow _ _ _ _ _ I') as (more & E & _ & _).
  exists more. rewrite (Inv_potential_alias _ _ _ L' I').
  by rewrite (Inv_potential_alias _ _ _ L' (Inv_refl st)).
Qed.

(** The loop terminates within the bound, keeps the invariant, and fills the
    next active set with the visited keys that satisfy the rule. *)
Lemma forOf_spec (st0 : state) (fuel : nat) :
  looping st0 →
  ∀ (i : nat) (st : state) (N : list Z),
    Inv st0 N st →
    (i ≤ length (potential st))%nat →
    (length (potentialNext st0) + length candidates < fuel + i)%nat →
    ∃ st' N',
      forOf fuel i st = Some st'
      ∧ Inv st0 N' st'
      ∧ (∃ more, potential st' = potential st ++ more)
      ∧ ∀ k, k ∈ N' ↔ k ∈ N ∨ (k ∈ drop i (potential st') ∧ lives st0 k).
Proof.
  intros L. induction fuel as [| fuel IH]; intros i st N I Hi Hfuel.
  - pose proof (Inv_potential_length _ _ _ L I). lia.
  - simpl. destruct (potential st !! i) as [cell |] eqn:Ecell.
    + pose proof (lookup_lt_Some _ _ _ Ecell) as Hlt.
      destruct (visit_spec st0 st N cell L I) as (N2 & I2 & HN2).
      destruct (visit_appends st0 st N cell L I) as (e & He).
      destruct (IH (S i) (visit cell st) N2 I2) as (st' & N' & Hrun & I' & [more Hmore] & HN').
      { rewrite He, length_app. lia. }
      { lia. }
      exists st', N'. split; [done |]. split; [done |].
      assert (Hpre : potential st' = potential st ++ (e ++ more)).
      { by rewrite Hmore, He, app_assoc. }
      split; [by eexists |].
      assert (Hat : potential st' !! i = Some cell).
      { rewrite Hpre. by apply lookup_app_l_Some. }
      intros k. rewrite HN', HN2, (drop_S _ _ _ Hat), elem_of_cons.
      split.
      * intros [[? | [-> ?]] | [? ?]]; auto.
      * intros [? | [[-> | ?] ?]]; auto.
    + exists st, N. split; [done |]. split; [done |].
      split; [exists []; by rewrite app_nil_r |].
      apply lookup_ge_None in Ecell. rewrite drop_ge by done.
      intros k. rewrite elem_of_nil. tauto.
Qed.

(** More fuel never changes the outcome of the loop. *)
Lemma forOf_fuel_mono (fuel fuel' i : nat) (st st' : state) :
  (fuel ≤ fuel')%nat → forOf fuel i st = Some st' → forOf fuel' i st = Some st'.
Proof.
  revert fuel' i st. induction fuel as [| fuel IH]; intros fuel' i st Hle; [done |].
  destruct fuel' as [| fuel']; [lia |]. simpl.
  destruct (potential st !! i); [| done]. apply IH. lia.
Qed.

Lemma promote_looping (st : state) : wf st → looping (promote st).
Proof.
  intros []. split; [split |]; simpl; rewrite ?length_app; simpl; try lia; done.
Qed.

Lemma active_promote (st : state) : wf st → active (promote st) = activeNext st.
Proof. intros []. unfold active, activeNext. simpl. by apply deref_app_l. Qed.

Lemma activeNext_promote (st : state) : activeNext (promote st) = [].
Proof.
  unfold activeNext. simpl.
  rewrite <- (Nat.add_0_r (length (heap st))). by rewrite deref_app_r.
Qed.

Lemma potentialNext_promote (st : state) :
  wf st → potentialNext (promote st) = potentialNext st.
Proof. intros []. unfold potentialNext. simpl. by apply deref_app_l. Qed.

Theorem simulate_spec (st : state) :
  wf st → ∃ st', simulate st = Some st' ∧ Simulated st st'.
Proof.
  intros W. pose proof (promote_looping st W) as L.
  destruct (forOf_spec (promote st) (gas width height st) L 0%nat (promote st) _
              (Inv_refl (promote st))) as (st2 & N' & Hrun & I & [more Hmore] & HN).
  { lia. }
  { rewrite potentialNext_promote by done. unfold gas. lia. }
  exists (bump st2). split.
  { unfold simulate, simulateFuel. by rewrite Hrun. }
  pose proof (Inv_looping _ _ _ L I) as [W2 Hal2].
  destruct I as [Ea En Ep Epn Eg El EA EN _].
  split; simpl.
  - by rewrite Ea.
  - by rewrite En.
  - by rewrite Ep.
  - by rewrite Epn.
  - by rewrite Eg.
  - change (active (bump st2)) with (active st2). by rewrite EA, active_promote.
  - unfold potentialNext, potential. simpl. by rewrite Hal2.
  - exists more. change (potential (bump st2)) with (potential st2).
    rewrite Hmore. f_equal. destruct W. unfold potential, potentialNext. simpl.
    by apply deref_app_l.
  - intros k. change (activeNext (bump st2)) with (activeNext st2).
    change (potential (bump st2)) with (potential st2).
    rewrite EN, HN, activeNext_promote, elem_of_nil, drop_0.
    rewrite (lives_active (promote st) (bump st2) k).
    + tauto.
    + change (active (bump st2)) with (active st2). by rewrite EA.
  - by destruct W2.
Qed.

(** [neighborsCount] is the live toroidal Moore-neighbour count: it visits
    the eight offsets in an order of its own, wraps each position and tests
    its key in the current active set. *)
Lemma neighborsCount_moore (st : state) (cx cy : Z) :
  neighborsCount st cx cy = mooreCount width height st cx cy.
Proof.
  unfold neighborsCount, mooreCount, potentialNeighborOffsets, mooreOffsets.
  cbn [foldl]. rewrite !(wrapCoord_mod width height) by done.
  rewrite !filter_cons, filter_nil. cbn [fst snd]. unfold Set_has.
  repeat match goal with
  | |- context [bool_decide ?P] =>
      destruct (bool_decide_reflect P);
      [rewrite ?(decide_True (P := P)) by done | rewrite ?(decide_False (P := P)) by done]
  end;
  reflexivity.
Qed.

(** The bound of [simulate] is not felt: any larger one gives the same state. *)
Lemma simulateFuel_more (fuel : nat) (st st' : state) :
  (gas width height st ≤ fuel)%nat → simulate st = Some st' →
  simulateFuel width height fuel st = Some st'.
Proof.
  intros Hle. unfold simulate, simulateFuel.
  destruct (forOf _ 0 (promote st)) as [st2 |] eqn:E; [| done].
  intros [= <-]. by rewrite (forOf_fuel_mono _ _ _ _ _ Hle E).
Qed.

End Engine.

(** ** The mutation API on well-formed states *)

Lemma wf_initial : wf initial.
Proof. split; simpl; lia. Qed.

Lemma wf_resetGame (st : state) : wf (resetGame st).
Proof. split; simpl; rewrite ?length_app; simpl; lia. Qed.

Lemma activeCells_add_views (k : Z) (st : state) :
  wf st →
  Added st (activeCells_add k st)
        (Set_add k (active st)) (activeNext st) (potentialNext st).
Proof.
  intros []. split; [split | ..]; simpl; rewrite ?length_heap_add; try done.
  - unfold active. simpl. by apply deref_heap_add_eq.
  - unfold activeNext. simpl. by apply deref_heap_add_ne.
  - unfold potentialNext. simpl. by apply deref_heap_add_ne.
Qed.

Lemma activeCellsNext_add_views (k : Z) (st : state) :
  wf st →
  Added st (activeCellsNext_add k st)
        (active st) (Set_add k (activeNext st)) (potentialNext st).
Proof.
  intros []. split; [split | ..]; simpl; rewrite ?length_heap_add; try done.
  - unfold active. simpl. apply deref_heap_add_ne. congruence.
  - unfold activeNext. simpl. by apply deref_heap_add_eq.
  - unfold potentialNext. simpl. by apply deref_heap_add_ne.
Qed.

Lemma potentialCellsNext_add_views (k : Z) (st : state) :
  wf st →
  Added st (potentialCellsNext_add k st)
        (active st) (activeNext st) (Set_add k (potentialNext st)).
Proof.
  intros []. split; [split | ..]; simpl; rewrite ?length_heap_add; try done.
  - unfold active. simpl. apply deref_heap_add_ne. congruence.
  - unfold activeNext. simpl. apply deref_heap_add_ne. congruence.
  - unfold potentialNext. simpl. by apply deref_heap_add_eq.
Qed.

Lemma Added_trans (st st' st'' : state) (A N P A' N' P' : list Z) :
  Added st st' A N P → Added st' st'' A' N' P' → Added st st'' A' N' P'.
Proof. intros [] []. split; congruence. Qed.

Lemma Added_refl (st : state) :
  wf st → Added st st (active st) (activeNext st) (potentialNext st).
Proof. by split. Qed.

Lemma Added_potential_step (st s : state) (A N P : list Z) (k : Z) :
  Added st s A N P → Added st (potentialCellsNext_add k s) A N (Set_add k P).
Proof.
  intros H.
  destruct (potentialCellsNext_add_views k s (added_wf _ _ _ _ _ H)).
  destruct H. split; congruence.
Qed.

(** The nested loops add the nine packed keys of the neighbourhood, row by
    row, to the next potential set and touch nothing else. *)
Lemma for_ny_nx_views (f : Z → Z → Z) (st : state) :
  wf st →
  Added st (for_ny_nx (λ nx ny, potentialCellsNext_add (f nx ny)) st)
        (active st) (activeNext st)
        (foldl (λ s k, Set_add k s) (potentialNext st) (neighbourhood f)).
Proof.
  intros W. unfold for_ny_nx, neighbourhood, span. simpl.
  repeat apply Added_potential_step. by apply Added_refl.
Qed.

Lemma elem_of_foldl_Set_add (ks s : list Z) (x : Z) :
  x ∈ foldl (λ s k, Set_add k s) s ks ↔ x ∈ ks ∨ x ∈ s.
Proof.
  revert s. induction ks as [| k ks IH]; intros s; simpl.
  - rewrite elem_of_nil. tauto.
  - rewrite IH, elem_of_Set_add, elem_of_cons. tauto.
Qed.

Lemma insertCell_views (x y : Z) (st : state) :
  wf st →
  Added st (insertCell x y st)
        (Set_add (packCoord x y) (active st))
        (Set_add (packCoord x y) (activeNext st))
        (foldl (λ s k, Set_add k s) (potentialNext st)
               (neighbourhood (λ nx ny, packCoord (x + nx) (y + ny)))).
Proof.
  intros W. unfold insertCell.
  pose proof (activeCells_add_views (packCoord x y) st W) as H1.
  pose proof (activeCellsNext_add_views (packCoord x y) _ (added_wf _ _ _ _ _ H1)) as H2.
  pose proof (for_ny_nx_views (λ nx ny, packCoord (x + nx) (y + ny)) _
                (added_wf _ _ _ _ _ H2)) as H3.
  destruct H1, H2, H3. split; congruence.
Qed.

Lemma wf_insertCell (x y : Z) (st : state) : wf st → wf (insertCell x y st).
Proof. intros W. apply (insertCell_views x y st W). Qed.

Lemma wf_insertLine (x y c : Z) (line : string) (st : state) :
  wf st → wf (insertLine x y c line st).
Proof.
  revert c st. induction line as [| ch rest IH]; intros c st W; simpl; [done |].
  apply IH. destruct (Ascii.eqb ch "#"); [by apply wf_insertCell | done].
Qed.

Lemma wf_insertCellPattern (x y : Z) (pattern : list string) (st : state) :
  wf st → wf (insertCellPattern x y pattern st).
Proof.
  unfold insertCellPattern. generalize 0 as l. revert st.
  induction pattern as [| line rest IH]; intros st l W; simpl; [done |].
  apply IH. by apply wf_insertLine.
Qed.

Lemma reachable_wf (width height : Z) (st : state) :
  0 < width → 0 < height → reachable width height st → wf st.
Proof.
  intros Hw Hh. induction 1 as [| | | | st st' _ IH Hsim].
  - apply wf_initial.
  - apply wf_resetGame.
  - by apply wf_insertCell.
  - by apply wf_insertCellPattern.
  - destruct (simulate_spec width height Hw Hh st IH) as (st2 & E & S).
    rewrite Hsim in E. injection E as <-. apply S.
Qed.

(** ** Reset *)

Lemma deref_reset (h : list (list Z)) (i : nat) :
  (i < 4)%nat → deref (h ++ [[]; []; []; []]) (length h + i) = [].
Proof.
  intros Hi. rewrite deref_app_r.
  do 4 (destruct i as [| i]; [done |]). lia.
Qed.

Lemma resetGame_empty (st : state) :
  active (resetGame st) = [] ∧ activeNext (resetGame st) = []
  ∧ potential (resetGame st) = [] ∧ potentialNext (resetGame st) = []
  ∧ generation (resetGame st) = 0.
Proof.
  unfold active, activeNext, potential, potentialNext. simpl.
  rewrite <- (Nat.add_0_r (length (heap st))) at 1.
  replace (S (length (heap st))) with (length (heap st) + 1)%nat by lia.
  replace (S (length (heap st) + 1)) with (length (heap st) + 2)%nat by lia.
  replace (S (length (heap st) + 2)) with (length (heap st) + 3)%nat by lia.
  rewrite !deref_reset by lia. done.
Qed.

Lemma simulate_resetGame (width height : Z) (st : state) :
  simulate width height (resetGame st) = Some (bump (promote (resetGame st))).
Proof.
  unfold simulate, simulateFuel, gas. simpl forOf.
  assert (E : potential (promote (resetGame st)) = []).
  { destruct (resetGame_empty st) as (_ & _ & _ & E & _).
    rewrite <- E.
    apply (deref_app_l (heap (resetGame st)) [[]]), wf_resetGame. }
  by rewrite E.
Qed.

(** ** [simulate] as a function of the three sets it reads *)

Section Views.

Variables width height : Z.

Abbreviation visit := (visit width height).
Abbreviation forOf := (forOf width height).
Abbreviation simulate := (simulate width height).
Abbreviation stimulus := (stimulus width height).
Abbreviation livesb := (livesb width height).

Lemma for_ny_nx_ext (f g : Z → Z → state → state) (st : state) :
  (∀ nx ny s, f nx ny s = g nx ny s) → for_ny_nx f st = for_ny_nx g st.
Proof. intros E. unfold for_ny_nx, span. simpl. by rewrite !E. Qed.

Lemma stimulateWrapped_keys (x y : Z) (st : state) :
  stimulateWrapped width height x y st
  = for_ny_nx (λ nx ny, potentialCellsNext_add (wrappedKey width height x y nx ny)) st.
Proof.
  unfold stimulateWrapped. apply for_ny_nx_ext. intros nx ny s.
  unfold wrappedKey. by destruct (wrapCoord width height (x + nx) (y + ny)).
Qed.

(** The exact effect of one visit on the sets. *)
Lemma visit_views (cell : Z) (st : state) :
  wf st →
  Added st (visit cell st) (active st)
        (if livesb st cell then Set_add cell (activeNext st) else activeNext st)
        (foldl (λ s k, Set_add k s) (potentialNext st) (stimulus st cell)).
Proof.
  intros W. unfold visit, livesb, stimulus.
  destruct (unpackCoord width height cell) as [x y].
  destruct (Set_has (active st) cell).
  - destruct (negb (_ =? 2) && negb (_ =? 3)); simpl negb; cbv iota.
    + apply for_ny_nx_views. done.
    + apply activeCellsNext_add_views. done.
  - destruct (_ =? 3).
    + rewrite stimulateWrapped_keys.
      pose proof (activeCellsNext_add_views cell st W) as H1.
      pose proof (for_ny_nx_views (wrappedKey width height x y) _
                    (added_wf _ _ _ _ _ H1)) as H2.
      destruct H1, H2. split; congruence.
    + by apply Added_refl.
Qed.

Lemma stimulus_active (st c : state) (cell : Z) :
  active st = active c → stimulus st cell = stimulus c cell.
Proof.
  intros E. unfold stimulus. destruct (unpackCoord width height cell) as [x y].
  by rewrite (neighborsCount_active width height st c x y E), E.
Qed.

Lemma livesb_active (st c : state) (cell : Z) :
  active st = active c → livesb st cell = livesb c cell.
Proof.
  intros E. unfold livesb. destruct (unpackCoord width height cell) as [x y].
  by rewrite (neighborsCount_active width height st c x y E), E.
Qed.

Lemma visit_sameViews (st c : state) (cell : Z) :
  sameViews st c → sameViews (visit cell st) (visit cell c).
Proof.
  intros [[W L] [W' L'] EA EN EP].
  destruct (visit_views cell st W) as [W1 ? ? Hpc Hpn ? A1 N1 P1].
  destruct (visit_views cell c W') as [W2 ? ? Hpc' Hpn' ? A2 N2 P2].
  split.
  - split; [done | congruence].
  - split; [done | congruence].
  - congruence.
  - by rewrite N1, N2, (livesb_active st c cell EA), EN.
  - by rewrite P1, P2, (stimulus_active st c cell EA), EP.
Qed.

Lemma sameViews_potential (st c : state) :
  sameViews st c → potential st = potential c.
Proof.
  intros [[_ L] [_ L'] _ _ EP]. unfold potential, potentialNext in *.
  by rewrite L, L'.
Qed.

(** The loop run on two states with the same sets gives the same sets. *)
Lemma forOf_sameViews (fuel i : nat) (st c st' : state) :
  sameViews st c → forOf fuel i st = Some st' →
  ∃ c', forOf fuel i c = Some c' ∧ sameViews st' c'.
Proof.
  revert i st c. induction fuel as [| fuel IH]; intros i st c V; [done |].
  simpl. rewrite (sameViews_potential st c V).
  destruct (potential c !! i) as [cell |].
  - apply IH. by apply visit_sameViews.
  - intros [= <-]. by exists c.
Qed.

(** [simulate] reads the next active set and the next potential set only. *)
Lemma simulate_views (st c st' : state) :
  wf st → wf c →
  activeNext st = activeNext c → potentialNext st = potentialNext c →
  simulate st = Some st' →
  ∃ c', simulate c = Some c'
        ∧ active st' = active c' ∧ activeNext st' = activeNext c'
        ∧ potentialNext st' = potentialNext c'.
Proof.
  intros W W' EN EP. unfold simulate, simulateFuel, gas. rewrite EP.
  destruct (forOf _ 0 (promote st)) as [st2 |] eqn:E; [| done].
  intros [= <-].
  assert (V : sameViews (promote st) (promote c)).
  { split; try by apply promote_looping.
    - by rewrite !active_promote.
    - by rewrite !activeNext_promote.
    - by rewrite !potentialNext_promote. }
  destruct (forOf_sameViews _ _ _ _ _ V E) as (c2 & -> & [_ _ EA2 EN2 EP2]).
  exists (bump c2). done.
Qed.

End Views.

(** ** What a step adds to the potential set *)

Section Stimulus.

Variables width height : Z.

Abbreviation unpackCoord := (unpackCoord width height).
Abbreviation neighborsCount := (neighborsCount width height).
Abbreviation visit := (visit width height).
Abbreviation forOf := (forOf width height).
Abbreviation simulate := (simulate width height).
Abbreviation stimulus := (stimulus width height).

Lemma foldl_Set_add_app (ks s : list Z) :
  ∃ more, foldl (λ s k, Set_add k s) s ks = s ++ more.
Proof.
  revert s. induction ks as [| k ks IH]; intros s; simpl.
  - exists []. by rewrite app_nil_r.
  - destruct (IH (Set_add k s)) as [more ->]. unfold Set_add.
    destruct (Set_has s k); [by exists more |].
    exists ([k] ++ more). by rewrite app_assoc.
Qed.

Lemma visit_looping (cell : Z) (st : state) : looping st → looping (visit cell st).
Proof.
  intros [W L]. destruct (visit_views width height cell st W) as [W' _ _ Hpc Hpn _ _ _ _].
  split; [done | congruence].
Qed.

Lemma looping_potential (st : state) : looping st → potential st = potentialNext st.
Proof. intros [_ L]. unfold potential, potentialNext. by rewrite L. Qed.

(** Whatever a visit of the loop adds is still in the set when the loop ends. *)
Lemma forOf_stimulus (fuel : nat) :
  ∀ (i : nat) (st st' : state),
    looping st → forOf fuel i st = Some st' →
    looping st' ∧ active st' = active st
    ∧ (∃ more, potential st' = potential st ++ more)
    ∧ ∀ cell k, cell ∈ drop i (potential st') → k ∈ stimulus st cell →
                k ∈ potential st'.
Proof.
  induction fuel as [| fuel IH]; intros i st st' L; [done |]. simpl.
  destruct (potential st !! i) as [cell |] eqn:Ecell.
  - intros Hrun.
    pose proof (visit_looping cell st L) as L2.
    destruct (visit_views width height cell st (proj1 L)) as [_ _ _ _ _ _ A2 _ P2].
    destruct (IH _ _ _ L2 Hrun) as (L' & A' & [more Hmore] & Hstim).
    destruct (foldl_Set_add_app (stimulus st cell) (potentialNext st)) as [e He].
    assert (Hpre : potential st' = potential st ++ (e ++ more)).
    { rewrite Hmore, (looping_potential _ L2), P2, He, (looping_potential _ L).
      by rewrite app_assoc. }
    split; [done |]. split; [congruence |]. split; [by eexists |].
    assert (Hat : potential st' !! i = Some cell).
    { rewrite Hpre. by apply lookup_app_l_Some. }
    intros c k. rewrite (drop_S _ _ _ Hat), elem_of_cons. intros [-> | Hc] Hk.
    + rewrite Hmore. apply elem_of_app. left.
      rewrite (looping_potential _ L2), P2. apply elem_of_foldl_Set_add. by left.
    + apply (Hstim c k Hc). by rewrite (stimulus_active width height _ st c A2).
  - intros [= <-]. split; [done |]. split; [done |].
    split; [exists []; by rewrite app_nil_r |].
    apply lookup_ge_None in Ecell. rewrite drop_ge by done.
    intros c k Hc. by apply elem_of_nil in Hc.
Qed.

(** After [simulate], the keys every visit added are in the potential set
    the next call iterates. *)
Theorem simulate_stimulus (st st' : state) :
  wf st → simulate st = Some st' →
  ∀ cell k, cell ∈ potential st' → k ∈ stimulus st' cell → k ∈ potentialNext st'.
Proof.
  intros W. unfold simulate, simulateFuel.
  destruct (forOf _ 0 (promote st)) as [st2 |] eqn:E; [| done]. intros [= <-].
  destruct (forOf_stimulus _ _ _ _ (promote_looping st W) E) as (L & A & _ & H).
  intros cell k Hc Hk.
  change (potentialNext (bump st2)) with (potentialNext st2).
  rewrite <- (looping_potential _ L).
  apply (H cell k); [by rewrite drop_0 |].
  by rewrite <- (stimulus_active width height (bump st2) (promote st) cell A).
Qed.

Lemma elem_of_neighbourhood (f : Z → Z → Z) (nx ny : Z) :
  nx ∈ span → ny ∈ span → f nx ny ∈ neighbourhood f.
Proof.
  intros Hx Hy. unfold neighbourhood.
  apply list_elem_of_bind. exists ny. split; [| done].
  apply list_elem_of_bind. exists nx. split; [| done].
  by apply list_elem_of_singleton.
Qed.

(** A birth contributes the keys of its whole neighbourhood on the torus. *)
Corollary birth_stimulates_torus (st st' : state) (cell x y nx ny : Z) :
  wf st → simulate st = Some st' →
  cell ∈ potential st' → cell ∉ active st' →
  unpackCoord cell = (x, y) → neighborsCount st' x y = 3 →
  nx ∈ span → ny ∈ span →
  wrappedKey width height x y nx ny ∈ potentialNext st'.
Proof.
  intros W E Hc Ha Hu Hn Hx Hy.
  apply (simulate_stimulus st st' W E cell); [done |].
  unfold stimulus. rewrite Hu, Hn. apply Set_has_false in Ha. rewrite Ha. simpl.
  by apply elem_of_neighbourhood.
Qed.

(** A death contributes the packed raw offsets, which leave the grid when
    the dying cell is on its rim. *)
Corollary death_stimulates_raw (st st' : state) (cell x y nx ny : Z) :
  wf st → simulate st = Some st' →
  cell ∈ potential st' → cell ∈ active st' →
  unpackCoord cell = (x, y) →
  neighborsCount st' x y ≠ 2 → neighborsCount st' x y ≠ 3 →
  nx ∈ span → ny ∈ span →
  packCoord (x + nx) (y + ny) ∈ potentialNext st'.
Proof.
  intros W E Hc Ha Hu H2 H3 Hx Hy.
  apply (simulate_stimulus st st' W E cell); [done |].
  unfold stimulus. rewrite Hu. apply Set_has_true in Ha. rewrite Ha.
  apply Z.eqb_neq in H2, H3. rewrite H2, H3. simpl.
  by apply (elem_of_neighbourhood (λ nx ny, packCoord (x + nx) (y + ny))).
Qed.

End Stimulus.

(** ** A block away from the edges is a still life *)

Lemma insertCell_same_sets (x y : Z) (st c : state) :
  wf st → wf c →
  active st = active c → activeNext st = activeNext c →
  potentialNext st = potentialNext c →
  wf (insertCell x y st) ∧ wf (insertCell x y c)
  ∧ active (insertCell x y st) = active (insertCell x y c)
  ∧ activeNext (insertCell x y st) = activeNext (insertCell x y c)
  ∧ potentialNext (insertCell x y st) = potentialNext (insertCell x y c).
Proof.
  intros W W' EA EN EP.
  destruct (insertCell_views x y st W) as [W1 _ _ _ _ _ A1 N1 P1].
  destruct (insertCell_views x y c W') as [W2 _ _ _ _ _ A2 N2 P2].
  by rewrite A1, A2, N1, N2, P1, P2, EA, EN, EP.
Qed.

Lemma holdsBlock_insertBlock (st0 : state) :
  holdsBlock (insertBlock 4 4 (resetGame st0)).
Proof.
  destruct (resetGame_empty st0) as (A0 & N0 & _ & P0 & _).
  destruct (resetGame_empty initial) as (A0' & N0' & _ & P0' & _).
  pose proof (insertCell_same_sets 4 4 _ _ (wf_resetGame st0) (wf_resetGame initial)
                ltac:(congruence) ltac:(congruence) ltac:(congruence))
    as (W1 & W1' & A1 & N1 & P1).
  pose proof (insertCell_same_sets (4 + 1) 4 _ _ W1 W1' A1 N1 P1)
    as (W2 & W2' & A2 & N2 & P2).
  pose proof (insertCell_same_sets 4 (4 + 1) _ _ W2 W2' A2 N2 P2)
    as (W3 & W3' & A3 & N3 & P3).
  pose proof (insertCell_same_sets (4 + 1) (4 + 1) _ _ W3 W3' A3 N3 P3)
    as (W4 & W4' & A4 & N4 & P4).
  split; [exact W4 | | | exact P4].
  - etrans; [exact A4 | reflexivity].
  - etrans; [exact N4 | reflexivity].
Qed.

Lemma interior_step :
  ∃ c', simulate 10 10 interior = Some c'
        ∧ activeNext c' = block 4 4
        ∧ potentialNext c' = potentialNext interior.
Proof. eexists. split; [vm_compute; reflexivity |]. split; vm_compute; reflexivity. Qed.

Lemma holdsBlock_simulate (st : state) :
  holdsBlock st → ∃ st', simulate 10 10 st = Some st' ∧ holdsBlock st'.
Proof.
  intros [W EA EN EP].
  destruct (simulate_spec 10 10 ltac:(lia) ltac:(lia) st W) as (st' & E & S).
  exists st'. split; [done |].
  destruct (holdsBlock_insertBlock initial) as [Wi _ ENi _].
  destruct (simulate_views 10 10 st interior st' W Wi (eq_trans EN (eq_sym ENi)) EP E)
    as (c' & Ec & _ & EN' & EP').
  destruct interior_step as (c'' & Ec' & ENc & EPc).
  rewrite Ec' in Ec. injection Ec as ->.
  split; [apply S | | congruence | congruence].
  by rewrite (sim_active _ _ _ _ S).
Qed.

(** Inserted after any reset on a 10x10 grid, the block at [(4, 4)] is the
    content of both active sets after every number of [simulate] calls. *)
Theorem block_still_life_interior (n : nat) (st0 : state) :
  ∃ st', steps 10 10 n (insertBlock 4 4 (resetGame st0)) = Some st'
         ∧ active st' = block 4 4 ∧ activeNext st' = block 4 4.
Proof.
  assert (H : ∀ st, holdsBlock st → ∃ st', steps 10 10 n st = Some st' ∧ holdsBlock st').
  { induction n as [| n IH]; intros st Hb; simpl.
    - by exists st.
    - destruct (holdsBlock_simulate st Hb) as (st1 & E1 & Hb1).
      rewrite E1. simpl. by apply IH. }
  destruct (H _ (holdsBlock_insertBlock st0)) as (st' & E & [_ EA EN _]).
  by exists st'.
Qed.

(** ** Properties of [simulate] and [resetGame] *)

Section Step.

Variables width height : Z.
Hypothesis width_pos : 0 < width.
Hypothesis height_pos : 0 < height.

Abbreviation unpackCoord := (unpackCoord width height).
Abbreviation neighborsCount := (neighborsCount width height).
Abbreviation visit := (visit width height).
Abbreviation simulate := (simulate width height).

(** C1. On a well-formed state [simulate] returns; every key of the set it
    iterated (which contains every key the next potential set held at the
    call) is in the next active set exactly when it is active and the live
    toroidal Moore-neighbour count of the cell it decodes to is 2 or 3, or
    inactive and that count is exactly 3; visiting an inactive key whose
    count is not 3 changes no set at all; and on a grid whose width fits the
    key field the key of a grid cell [(a, b)] follows the rule with the
    count of [(a, b)] itself. *)
Theorem C1_simulate_applies_rule (st : state) :
  wf st →
  ∃ st',
    simulate st = Some st'
    ∧ (∀ cell, cell ∈ potentialNext st → cell ∈ potential st')
    ∧ (∀ cell, cell ∈ potential st' →
         let '(x, y) := unpackCoord cell in
         let n := mooreCount width height st' x y in
         cell ∈ activeNext st'
         ↔ (cell ∈ active st' ∧ (n = 2 ∨ n = 3)) ∨ ((cell ∉ active st') ∧ n = 3))
    ∧ (∀ cell s,
         cell ∉ active s →
         (let '(x, y) := unpackCoord cell in mooreCount width height s x y ≠ 3) →
         visit cell s = s)
    ∧ (width ≤ 2 ^ 32 →
       ∀ a b, 0 ≤ a < width → 0 ≤ b < height →
         packCoord a b ∈ potential st' →
         let n := mooreCount width height st' a b in
         packCoord a b ∈ activeNext st'
         ↔ (packCoord a b ∈ active st' ∧ (n = 2 ∨ n = 3))
           ∨ ((packCoord a b ∉ active st') ∧ n = 3)).
Proof.
  intros W.
  destruct (simulate_spec width height width_pos height_pos st W) as (st' & E & S).
  assert (R : ∀ cell, cell ∈ potential st' →
            let '(x, y) := unpackCoord cell in
            let n := mooreCount width height st' x y in
            cell ∈ activeNext st'
            ↔ (cell ∈ active st' ∧ (n = 2 ∨ n = 3)) ∨ ((cell ∉ active st') ∧ n = 3)).
  { intros cell Hc. pose proof (sim_rule _ _ _ _ S cell) as R.
    unfold lives in R. destruct (unpackCoord cell) as [x y].
    rewrite (neighborsCount_moore width height width_pos height_pos) in R.
    cbv zeta in R |- *. tauto. }
  exists st'. split; [done |]. split; [| split; [exact R | split]].
  - intros cell Hc. destruct (sim_grow _ _ _ _ S) as [more ->].
    apply elem_of_app. by left.
  - intros cell s Hin Hn. apply visit_idle; [done |].
    destruct (unpackCoord cell) as [x y].
    by rewrite (neighborsCount_moore width height width_pos height_pos).
  - intros Hw a b Ha Hb Hc. specialize (R _ Hc).
    rewrite (unpackCoord_packCoord width height), (wrapCoord_id width height) in R by lia.
    exact R.
Qed.

(** C3. Every key of the next active set after [simulate] is a key of the
    set that was iterated, so an active key that is not in that set is
    dropped whatever its neighbour count. *)
Theorem C3_next_active_within_potential (st : state) :
  wf st →
  ∃ st',
    simulate st = Some st'
    ∧ (∀ k, k ∈ activeNext st' → k ∈ potential st')
    ∧ (∀ k, k ∈ active st' → k ∉ potential st' → k ∉ activeNext st').
Proof.
  intros W.
  destruct (simulate_spec width height width_pos height_pos st W) as (st' & E & S).
  exists st'. split; [done |].
  assert (H : ∀ k, k ∈ activeNext st' → k ∈ potential st').
  { intros k Hk. by apply (sim_rule _ _ _ _ S k) in Hk as [? _]. }
  split; [done |]. intros k _ Hnot Hin. by apply Hnot, H.
Qed.

(** C5. After [simulate] the variable [activeCells] names the object that
    [activeCellsNext] named before the call, with the content it had then;
    the results of the call sit in a fresh object named by [activeCellsNext]
    and are exposed as [activeCells] only by the following call. *)
Theorem C5_publication_lag (st : state) :
  wf st →
  ∃ st',
    simulate st = Some st'
    ∧ activeCells st' = activeCellsNext st
    ∧ active st' = activeNext st
    ∧ activeCellsNext st' = length (heap st)
    ∧ activeCellsNext st' ≠ activeCells st'
    ∧ ∃ st'', simulate st' = Some st'' ∧ active st'' = activeNext st'.
Proof.
  intros W.
  destruct (simulate_spec width height width_pos height_pos st W) as (st' & E & S).
  destruct (simulate_spec width height width_pos height_pos st' (sim_wf _ _ _ _ S))
    as (st'' & E' & S').
  exists st'. split; [done |].
  split; [apply S |]. split; [apply S |]. split; [apply S |].
  split.
  - pose proof (sim_wf _ _ _ _ S) as []. congruence.
  - exists st''. split; [done | apply S'].
Qed.

(** C10. From any state, [resetGame] leaves the four sets empty and the
    generation 0; one [simulate] after it leaves them empty with generation
    1; and every [simulate] adds exactly 1 to the generation. *)
Theorem C10_reset_then_step (st : state) :
  (active (resetGame st) = [] ∧ activeNext (resetGame st) = []
   ∧ potential (resetGame st) = [] ∧ potentialNext (resetGame st) = []
   ∧ generation (resetGame st) = 0)
  ∧ (∃ st',
       simulate (resetGame st) = Some st'
       ∧ active st' = [] ∧ activeNext st' = []
       ∧ potential st' = [] ∧ potentialNext st' = []
       ∧ generation st' = 1)
  ∧ (∀ s, wf s → ∃ s', simulate s = Some s' ∧ generation s' = generation s + 1).
Proof.
  split; [apply resetGame_empty |]. split.
  - exists (bump (promote (resetGame st))). split; [apply simulate_resetGame |].
    destruct (resetGame_empty st) as (EA & EN & EP & EPN & EG).
    pose proof (wf_resetGame st) as W.
    change (active (bump ?s)) with (active s).
    change (activeNext (bump ?s)) with (activeNext s).
    change (potential (bump ?s)) with (potential s).
    change (potentialNext (bump ?s)) with (potentialNext s).
    rewrite (active_promote _ W), activeNext_promote, (potentialNext_promote _ W).
    split; [done |]. split; [done |]. split; [| split; [done |]].
    + rewrite <- EPN.
      apply (deref_app_l (heap (resetGame st)) [[]]), W.
    + reflexivity.
  - intros s W.
    destruct (simulate_spec width height width_pos height_pos s W) as (s' & E & S).
    exists s'. split; [done | apply S].
Qed.

End Step.

Lemma C1_witness :
  wf corner
  ∧ ∃ st',
      simulate 10 10 corner = Some st'
      ∧ (∀ cell, cell ∈ potentialNext corner → cell ∈ potential st')
      ∧ (∀ cell, cell ∈ potential st' →
           let '(x, y) := unpackCoord 10 10 cell in
           let n := mooreCount 10 10 st' x y in
           cell ∈ activeNext st'
           ↔ (cell ∈ active st' ∧ (n = 2 ∨ n = 3)) ∨ ((cell ∉ active st') ∧ n = 3))
      ∧ (∀ cell s,
           cell ∉ active s →
           (let '(x, y) := unpackCoord 10 10 cell in mooreCount 10 10 s x y ≠ 3) →
           visit 10 10 cell s = s)
      ∧ (10 ≤ 2 ^ 32 →
         ∀ a b, 0 ≤ a < 10 → 0 ≤ b < 10 →
           packCoord a b ∈ potential st' →
           let n := mooreCount 10 10 st' a b in
           packCoord a b ∈ activeNext st'
           ↔ (packCoord a b ∈ active st' ∧ (n = 2 ∨ n = 3))
             ∨ ((packCoord a b ∉ active st') ∧ n = 3)).
Proof.
  assert (W : wf corner) by (split; vm_compute; lia).
  split; [exact W |].
  apply (C1_simulate_applies_rule 10 10); [lia | lia | exact W].
Defined.

Lemma C3_witness :
  wf corner
  ∧ ∃ st',
      simulate 10 10 corner = Some st'
      ∧ (∀ k, k ∈ activeNext st' → k ∈ potential st')
      ∧ (∀ k, k ∈ active st' → k ∉ potential st' → k ∉ activeNext st').
Proof.
  assert (W : wf corner) by (split; vm_compute; lia).
  split; [exact W |].
  apply (C3_next_active_within_potential 10 10); [lia | lia | exact W].
Defined.

Lemma C5_witness :
  wf corner
  ∧ ∃ st',
      simulate 10 10 corner = Some st'
      ∧ activeCells st' = activeCellsNext corner
      ∧ active st' = activeNext corner
      ∧ activeCellsNext st' = length (heap corner)
      ∧ activeCellsNext st' ≠ activeCells st'
      ∧ ∃ st'', simulate 10 10 st' = Some st'' ∧ active st'' = activeNext st'.
Proof.
  assert (W : wf corner) by (split; vm_compute; lia).
  split; [exact W |].
  apply (C5_publication_lag 10 10); [lia | lia | exact W].
Defined.

Lemma C10_witness :
  (active (resetGame corner) = [] ∧ activeNext (resetGame corner) = []
   ∧ potential (resetGame corner) = [] ∧ potentialNext (resetGame corner) = []
   ∧ generation (resetGame corner) = 0)
  ∧ (∃ st',
       simulate 10 10 (resetGame corner) = Some st'
       ∧ active st' = [] ∧ activeNext st' = []
       ∧ potential st' = [] ∧ potentialNext st' = []
       ∧ generation st' = 1)
  ∧ (∀ s, wf s → ∃ s', simulate 10 10 s = Some s' ∧ generation s' = generation s + 1).
Proof. apply (C10_reset_then_step 10 10); lia. Defined.

(** ** The codec round trip *)

(** C6. For all integers [x] and [y] of the 32-bit range and every grid of
    positive width and height in that range, the wrapped coordinate is the
    floored modulo of the input, lies inside the grid also for negative
    inputs, and decoding its key gives it back. *)
Theorem C6_codec_roundtrip (width height x y : Z) :
  0 < width ≤ 2 ^ 32 → 0 < height ≤ 2 ^ 32 →
  - 2 ^ 32 ≤ x ≤ 2 ^ 32 → - 2 ^ 32 ≤ y ≤ 2 ^ 32 →
  let '(wx, wy) := wrapCoord width height x y in
  unpackCoord width height (packCoord wx wy) = wrapCoord width height x y
  ∧ 0 ≤ wx < width ∧ 0 ≤ wy < height
  ∧ wx = x mod width ∧ wy = y mod height.
Proof.
  intros Hw Hh _ _.
  destruct (wrapCoord width height x y) as [wx wy] eqn:E.
  pose proof (wrapCoord_range width height x y wx wy ltac:(lia) ltac:(lia) E) as [Hx Hy].
  split.
  - rewrite unpackCoord_packCoord by lia. by apply wrapCoord_id.
  - rewrite wrapCoord_mod in E by lia. injection E as <- <-. auto.
Qed.

Lemma C6_witness :
  let '(wx, wy) := wrapCoord 10 10 (-1) 13 in
  unpackCoord 10 10 (packCoord wx wy) = wrapCoord 10 10 (-1) 13
  ∧ 0 ≤ wx < 10 ∧ 0 ≤ wy < 10
  ∧ wx = (-1) mod 10 ∧ wy = 13 mod 10.
Proof. apply (C6_codec_roundtrip 10 10 (-1) 13); lia. Defined.

(** ** A single cell *)

Section Lonely.

Variables width height : Z.
Hypothesis width_pos : 0 < width.
Hypothesis height_pos : 0 < height.

Lemma shift_fixed (n o w : Z) :
  2 ≤ w → -1 ≤ o ≤ 1 → 0 ≤ n < w → (n + o) mod w = n → o = 0.
Proof.
  intros Hw Ho Hn E.
  pose proof (Z.div_mod (n + o) w ltac:(lia)) as D. rewrite E in D.
  set (q := (n + o) / w) in D.
  assert (q = 0) by (destruct (Z_lt_le_dec q 0); destruct (Z_lt_le_dec 0 q); nia).
  subst q. lia.
Qed.

(** On a grid of at least 2x2 cells whose width fits the key field, no
    neighbour of the cell a key decodes to has that key. *)
Lemma neighbour_key_differs (k ox oy : Z) :
  2 ≤ width ≤ 2 ^ 32 → 2 ≤ height →
  -1 ≤ ox ≤ 1 → -1 ≤ oy ≤ 1 → (ox, oy) ≠ (0, 0) →
  let '(cx, cy) := unpackCoord width height k in
  let '(nx, ny) := wrapCoord width height (cx + ox) (cy + oy) in
  packCoord nx ny ≠ k.
Proof.
  intros Hw Hh Hox Hoy Hne.
  destruct (unpackCoord width height k) as [cx cy] eqn:Ek.
  destruct (wrapCoord width height (cx + ox) (cy + oy)) as [nx ny] eqn:En.
  intros <-.
  pose proof (wrapCoord_range width height _ _ _ _ width_pos height_pos En) as [Hx Hy].
  rewrite unpackCoord_packCoord, wrapCoord_id in Ek by lia.
  injection Ek as <- <-.
  rewrite wrapCoord_mod in En by done. injection En as Ex Ey.
  apply shift_fixed in Ex; [| lia | lia | lia].
  apply shift_fixed in Ey; [| lia | lia | lia].
  congruence.
Qed.

Lemma views_lonely (x y : Z) (st0 : state) :
  let st := insertCell x y (resetGame st0) in
  wf st ∧ active st = [packCoord x y] ∧ activeNext st = [packCoord x y]
  ∧ packCoord x y ∈ potentialNext st.
Proof.
  cbv zeta.
  destruct (insertCell_views x y _ (wf_resetGame st0)) as [W _ _ _ _ _ EA EN EP].
  destruct (resetGame_empty st0) as (EA0 & EN0 & _ & _ & _).
  split; [done |]. rewrite EA, EN, EA0, EN0. split; [done |]. split; [done |].
  rewrite EP. apply elem_of_foldl_Set_add. left.
  unfold neighbourhood, span. simpl. rewrite !Z.add_0_r.
  do 4 apply list_elem_of_further. apply list_elem_of_here.
Qed.

Lemma offsets_bound (ox oy : Z) :
  (ox, oy) ∈ potentialNeighborOffsets →
  -1 ≤ ox ≤ 1 ∧ -1 ≤ oy ≤ 1 ∧ (ox, oy) ≠ (0, 0).
Proof.
  unfold potentialNeighborOffsets. rewrite !elem_of_cons, elem_of_nil.
  intros H. repeat destruct H as [H | H]; try done;
    injection H as -> ->; (split; [lia | split; [lia | intros [=]]]).
Qed.

(** The count is 0 when no neighbouring position holds a live key. *)
Lemma neighborsCount_zero (st : state) (cx cy : Z) :
  (∀ ox oy, (ox, oy) ∈ potentialNeighborOffsets →
     let '(nx, ny) := wrapCoord width height (cx + ox) (cy + oy) in
     packCoord nx ny ∉ active st) →
  neighborsCount width height st cx cy = 0.
Proof.
  unfold neighborsCount. generalize 0 as count.
  induction potentialNeighborOffsets as [| [ox oy] l IH]; intros count H;
    cbn [foldl]; [done |].
  pose proof (H ox oy ltac:(apply list_elem_of_here)) as H0.
  destruct (wrapCoord width height (cx + ox) (cy + oy)) as [nx ny].
  apply Set_has_false in H0. rewrite H0.
  apply IH. intros ox' oy' Hin. apply H. by apply list_elem_of_further.
Qed.

(** A freshly inserted cell has no live neighbour on such a grid. *)
Lemma lonely_isolated (x y : Z) (st0 : state) :
  2 ≤ width ≤ 2 ^ 32 → 2 ≤ height →
  let '(cx, cy) := unpackCoord width height (packCoord x y) in
  neighborsCount width height (insertCell x y (resetGame st0)) cx cy = 0.
Proof.
  intros Hw Hh.
  destruct (views_lonely x y st0) as (_ & EA & _).
  pose proof (neighbour_key_differs (packCoord x y)) as D.
  destruct (unpackCoord width height (packCoord x y)) as [cx cy].
  apply neighborsCount_zero. intros ox oy (Hox & Hoy & Hne)%offsets_bound.
  specialize (D ox oy Hw Hh Hox Hoy Hne).
  destruct (wrapCoord width height (cx + ox) (cy + oy)) as [nx ny].
  rewrite EA. by rewrite list_elem_of_singleton.
Qed.

(** C4, amended. After a reset, one [insertCell] of a cell without live
    neighbours and one [simulate], the cell is still in the published
    current active set but no longer in the next active set; after a second
    [simulate] it is no longer in the published current active set. *)
Theorem C4_lonely_cell_dies (x y : Z) (st0 : state) :
  (let '(cx, cy) := unpackCoord width height (packCoord x y) in
   neighborsCount width height (insertCell x y (resetGame st0)) cx cy = 0) →
  ∃ st1 st2,
    simulate width height (insertCell x y (resetGame st0)) = Some st1
    ∧ simulate width height st1 = Some st2
    ∧ packCoord x y ∈ active st1
    ∧ (packCoord x y ∉ activeNext st1)
    ∧ packCoord x y ∉ active st2.
Proof.
  intros Hn.
  destruct (views_lonely x y st0) as (W & EA & EN & EP).
  destruct (simulate_spec width height width_pos height_pos _ W) as (st1 & E1 & S1).
  destruct (simulate_spec width height width_pos height_pos st1 (sim_wf _ _ _ _ S1))
    as (st2 & E2 & S2).
  exists st1, st2. split; [done |]. split; [done |].
  assert (A1 : active st1 = [packCoord x y]).
  { by rewrite (sim_active _ _ _ _ S1). }
  assert (Hdead : packCoord x y ∉ activeNext st1).
  { intros [_ L]%(sim_rule _ _ _ _ S1). unfold lives in L.
    destruct (unpackCoord width height (packCoord x y)) as [cx cy].
    rewrite (neighborsCount_active width height st1 (insertCell x y (resetGame st0)))
      in L by congruence.
    rewrite Hn in L. destruct L as [[_ [? | ?]] | [_ ?]]; done. }
  split; [rewrite A1; apply list_elem_of_here |]. split; [done |].
  by rewrite (sim_active _ _ _ _ S2).
Qed.

End Lonely.

(** C4 as stated fails: one [simulate] after inserting the lonely cell
    [(3, 3)] on a 10x10 grid leaves its key in the published set. *)
Lemma C4_counterexample :
  neighborsCount 10 10 lonely 3 3 = 0
  ∧ ∃ st1, simulate 10 10 lonely = Some st1 ∧ active st1 = [packCoord 3 3].
Proof. split; [reflexivity |]. eexists. split; vm_compute; reflexivity. Qed.

Lemma C4_witness :
  ∃ st1 st2,
    simulate 10 10 lonely = Some st1
    ∧ simulate 10 10 st1 = Some st2
    ∧ packCoord 3 3 ∈ active st1
    ∧ (packCoord 3 3 ∉ activeNext st1)
    ∧ packCoord 3 3 ∉ active st2.
Proof.
  apply (C4_lonely_cell_dies 10 10); [lia | lia | vm_compute; reflexivity].
Defined.

(** ** Keys that leave the grid *)

(** Packing a negative [x] sets every bit of the key: the three left
    neighbours of a cell in column 0 share the single key [-1]. *)
Lemma packCoord_minus_one (y : Z) : packCoord (-1) y = -1.
Proof. unfold packCoord. apply Z.lor_m1_r. Qed.

(** The key of a cell inside the grid is never negative. *)
Lemma encodesGridCell_nonneg (width height k : Z) :
  encodesGridCell width height k → 0 ≤ k.
Proof.
  intros (a & b & Ha & Hb & ->). unfold packCoord.
  apply Z.lor_nonneg. split; [apply Z.shiftl_nonneg |]; lia.
Qed.

(** [insertCell] adds its key to both active sets whatever they hold, and an
    active set that already has the key is left as it is. *)
Lemma insertCell_idempotent_active (x y : Z) (st : state) :
  wf st → packCoord x y ∈ active st → packCoord x y ∈ activeNext st →
  active (insertCell x y st) = active st
  ∧ activeNext (insertCell x y st) = activeNext st.
Proof.
  intros W Ha Hn.
  destruct (insertCell_views x y st W) as [_ _ _ _ _ _ EA EN _].
  by rewrite EA, EN, !Set_add_present.
Qed.

(** C2 on a grid of 255x100 cells, block at the left edge of the last two
    rows.  Every block cell has exactly 3 live neighbours, yet the first
    [simulate] puts the extra key [-1] into the next active set and after the
    second the published active set has five keys. *)
Theorem C2_block_at_left_edge :
  let st := insertBlock 0 98 (resetGame initial) in
  active st = block 0 98
  ∧ Forall (λ k, let '(x, y) := unpackCoord 255 100 k in
                 neighborsCount 255 100 st x y = 3) (block 0 98)
  ∧ unpackCoord 255 100 (-1) = (0, 99)
  ∧ ∃ st1 st2,
      steps 255 100 1 st = Some st1
      ∧ activeNext st1 = -1 :: block 0 98
      ∧ steps 255 100 2 st = Some st2
      ∧ active st2 = -1 :: block 0 98.
Proof.
  cbv zeta. split; [reflexivity |]. split.
  { repeat constructor. }
  split; [reflexivity |].
  eexists. eexists.
  split; [vm_compute; reflexivity |]. split; [vm_compute; reflexivity |].
  split; vm_compute; reflexivity.
Qed.

(** C7 on a 10x10 grid.  Inserting the corner cell [(0, 0)] stores the key
    [-1] in the next potential set; inserting [(10, 0)], alone or as the last
    mark of a row stamped at [(8, 0)], stores the key [10] in both active
    sets; and the death of the lonely cell [(0, 5)] has [simulate] store [-1]
    again.  Neither key is the key of a grid cell. *)
Theorem C7_keys_outside_grid :
  Set_has (potentialNext (insertCell 0 0 (resetGame initial))) (-1) = true
  ∧ active (insertCell 10 0 (resetGame initial)) = [10]
  ∧ activeNext (insertCell 10 0 (resetGame initial)) = [10]
  ∧ active (insertCellPattern 8 0 ["###"%string] (resetGame initial)) = [8; 9; 10]
  ∧ (∃ st', simulate 10 10 (insertCell 0 5 (resetGame initial)) = Some st'
            ∧ Set_has (potentialNext st') (-1) = true)
  ∧ ¬ encodesGridCell 10 10 (-1)
  ∧ ¬ encodesGridCell 10 10 10.
Proof.
  split; [reflexivity |]. split; [reflexivity |]. split; [reflexivity |].
  split; [reflexivity |].
  split; [eexists; split; vm_compute; reflexivity |].
  split.
  - intros H%encodesGridCell_nonneg. lia.
  - intros (a & b & Ha & Hb & E).
    rewrite packCoord_sum in E by lia. lia.
Qed.

(** C8 on a 10x10 grid.  The lonely cell [(0, 5)] dies in the first
    [simulate]; its left neighbour on the torus is [(9, 5)], and the key of
    that cell is not in the potential set the next call will use. *)
Theorem C8_death_at_left_edge :
  wrapCoord 10 10 (0 + -1) 5 = (9, 5)
  ∧ ∃ st',
      simulate 10 10 (insertCell 0 5 (resetGame initial)) = Some st'
      ∧ Set_has (active st') (packCoord 0 5) = true
      ∧ Set_has (activeNext st') (packCoord 0 5) = false
      ∧ Set_has (potentialNext st') (packCoord 9 5) = false
      ∧ potentialNext st'
        = [-1; packCoord 0 4; packCoord 1 4; packCoord 0 5; packCoord 1 5;
           packCoord 0 6; packCoord 1 6].
Proof.
  split; [reflexivity |]. eexists.
  split; [vm_compute; reflexivity |].
  repeat split; vm_compute; reflexivity.
Qed.

(** C9 on a 10x10 grid.  [insertCell(0, 0)] adds seven keys to the next
    potential set, not nine: the keys of the torus cells [(9, 9)], [(9, 0)]
    and [(9, 1)] are missing and the key [-1], which decodes to [(5, 9)],
    stands in their place.  [insertCell(10, 0)] marks the key [10] and not
    the key [0] of the wrapped cell [(0, 0)]. *)
Theorem C9_insertCell_does_not_wrap :
  potentialNext (insertCell 0 0 (resetGame initial))
  = [-1; packCoord 0 (-1); packCoord 1 (-1); packCoord 0 0; packCoord 1 0;
     packCoord 0 1; packCoord 1 1]
  ∧ Forall (λ '(nx, ny),
            let '(wx, wy) := wrapCoord 10 10 (0 + nx) (0 + ny) in
            Set_has (potentialNext (insertCell 0 0 (resetGame initial)))
                    (packCoord wx wy) = false)
           [(-1, -1); (-1, 0); (-1, 1)]
  ∧ unpackCoord 10 10 (-1) = (5, 9)
  ∧ wrapCoord 10 10 10 0 = (0, 0)
  ∧ active (insertCell 10 0 (resetGame initial)) = [packCoord 10 0]
  ∧ Set_has (active (insertCell 10 0 (resetGame initial))) (packCoord 0 0) = false
  ∧ Set_has (activeNext (insertCell 10 0 (resetGame initial))) (packCoord 0 0) = false.
Proof.
  split; [reflexivity |]. split; [repeat constructor |].
  repeat split; reflexivity.
Qed.

(** ** More on the codec *)

Section CodecLaws.

Variables width height : Z.
Hypothesis width_pos : 0 < width.
Hypothesis height_pos : 0 < height.

(** Wrapping a wrapped coordinate changes nothing. *)
Theorem wrapCoord_idempotent (x y : Z) :
  let '(wx, wy) := wrapCoord width height x y in
  wrapCoord width height wx wy = (wx, wy).
Proof.
  destruct (wrapCoord width height x y) as [wx wy] eqn:E.
  apply (wrapCoord_range width height) in E as [Hx Hy]; [| done | done].
  by apply wrapCoord_id.
Qed.

(** [wrapCoord] has period [width] in [x] and [height] in [y], in both
    directions. *)
Theorem wrapCoord_periodic (x y a b : Z) :
  wrapCoord width height (x + a * width) (y + b * height)
  = wrapCoord width height x y.
Proof. rewrite !wrapCoord_mod by done. by rewrite !Z_mod_plus_full. Qed.

(** Whatever the key, [unpackCoord] returns a cell of the grid; and for a key
    packed from an [x] inside the 32-bit field, wrapped or not, it returns
    the wrapped coordinate. *)
Theorem unpackCoord_total (k x y : Z) :
  (let '(ux, uy) := unpackCoord width height k in
   0 ≤ ux < width ∧ 0 ≤ uy < height)
  ∧ (0 ≤ x < 2 ^ 32 →
     unpackCoord width height (packCoord x y) = wrapCoord width height x y).
Proof.
  split.
  - destruct (unpackCoord width height k) as [ux uy] eqn:E.
    by apply (unpackCoord_range width height width_pos height_pos k).
  - apply unpackCoord_packCoord.
Qed.

End CodecLaws.

Lemma wrapCoord_idempotent_witness :
  let '(wx, wy) := wrapCoord 10 7 (-13) 29 in wrapCoord 10 7 wx wy = (wx, wy).
Proof. apply (wrapCoord_idempotent 10 7); lia. Defined.

Lemma wrapCoord_periodic_witness :
  wrapCoord 10 7 (3 + -2 * 10) (4 + 5 * 7) = wrapCoord 10 7 3 4.
Proof. apply (wrapCoord_periodic 10 7); lia. Defined.

Lemma unpackCoord_total_witness :
  (let '(ux, uy) := unpackCoord 10 7 (-1) in 0 ≤ ux < 10 ∧ 0 ≤ uy < 7)
  ∧ unpackCoord 10 7 (packCoord 12 (-3)) = wrapCoord 10 7 12 (-3).
Proof.
  destruct (unpackCoord_total 10 7 ltac:(lia) ltac:(lia) (-1) 12 (-3)) as [H1 H2].
  split; [exact H1 | apply H2; lia].
Defined.

(** Two pairs whose [x] lies inside the 32-bit field have the same key only
    when they are the same pair; [y] may be any integer. *)
Theorem packCoord_injective (x y x' y' : Z) :
  0 ≤ x < 2 ^ 32 → 0 ≤ x' < 2 ^ 32 →
  packCoord x y = packCoord x' y' → x = x' ∧ y = y'.
Proof. apply packCoord_inj. Qed.

Lemma packCoord_injective_witness : 3 = 3 ∧ -4 = -4.
Proof. apply (packCoord_injective 3 (-4) 3 (-4)); [lia | lia | reflexivity]. Defined.

(** A negative [x] of at most 32 bits swallows the row: the key is [x]
    itself, whatever [y] is, so all cells left of column 0 in any row share
    their keys. *)
Theorem packCoord_negative_x (x y : Z) :
  - 2 ^ 32 ≤ x < 0 → packCoord x y = x.
Proof.
  intros Hx. unfold packCoord. apply Z.bits_inj'. intros n Hn.
  rewrite Z.lor_spec.
  destruct (Z_lt_ge_dec n 32).
  - by rewrite Z.shiftl_spec_low by lia.
  - rewrite (Z.bits_above_log2_neg x n); [apply orb_true_r | lia |].
    destruct (Z.eq_dec (Z.pred (- x)) 0) as [-> | Hne]; [simpl; lia |].
    apply Z.lt_le_trans with 32; [| lia]. apply Z.log2_lt_pow2; lia.
Qed.

Lemma packCoord_negative_x_witness : packCoord (-1) 7 = -1.
Proof. apply (packCoord_negative_x (-1) 7). lia. Defined.

(** ** More on [neighborsCount] *)

Section CountLaws.

Variables width height : Z.
Hypothesis width_pos : 0 < width.
Hypothesis height_pos : 0 < height.

Lemma foldl_pointwise {A B : Type} (f g : A → B → A) (l : list B) (a : A) :
  (∀ a b, b ∈ l → f a b = g a b) → foldl f a l = foldl g a l.
Proof.
  revert a. induction l as [| b l IH]; intros a H; simpl; [done |].
  rewrite (H a b) by apply list_elem_of_here.
  apply IH. intros a' b' Hb'. apply H. by apply list_elem_of_further.
Qed.

Lemma count_step_bounds (A : list Z) (cx cy : Z) (l : list (Z * Z)) (count : Z) :
  let r := foldl (λ count '(ox, oy),
                    let '(nx, ny) := wrapCoord width height (cx + ox) (cy + oy) in
                    let potentialNeighbor := packCoord nx ny in
                    if Set_has A potentialNeighbor then count + 1 else count)
                 count l in
  count ≤ r ≤ count + Z.of_nat (length l).
Proof.
  cbv zeta. revert count. induction l as [| [ox oy] l IH]; intros count; cbn [foldl length].
  - lia.
  - destruct (wrapCoord width height (cx + ox) (cy + oy)) as [nx ny].
    destruct (Set_has A (packCoord nx ny)).
    + specialize (IH (count + 1)). lia.
    + specialize (IH count). lia.
Qed.

(** The count is a number from 0 to 8, whatever the sets hold. *)
Theorem neighborsCount_bounds (st : state) (cx cy : Z) :
  0 ≤ neighborsCount width height st cx cy ≤ 8.
Proof.
  pose proof width_pos as _. pose proof height_pos as _.
  pose proof (count_step_bounds (active st) cx cy potentialNeighborOffsets 0) as H.
  cbv zeta in H. unfold neighborsCount. simpl length in H. lia.
Qed.

(** The count of a position is the count of the cell it wraps to: shifting
    the position by whole grid widths or heights does not change it. *)
Theorem neighborsCount_periodic (st : state) (cx cy a b : Z) :
  neighborsCount width height st (cx + a * width) (cy + b * height)
  = neighborsCount width height st cx cy.
Proof.
  unfold neighborsCount. apply foldl_pointwise. intros count [ox oy] _.
  replace (cx + a * width + ox) with (cx + ox + a * width) by lia.
  replace (cy + b * height + oy) with (cy + oy + b * height) by lia.
  rewrite !wrapCoord_mod by done. by rewrite !Z_mod_plus_full.
Qed.

(** The count looks up keys of grid cells only: two states whose current
    active sets hold the same keys of grid cells give the same count, so a
    key that is not the key of a grid cell is never counted as a neighbour. *)
Theorem neighborsCount_grid_keys_only (st st' : state) (cx cy : Z) :
  (∀ k, encodesGridCell width height k → k ∈ active st ↔ k ∈ active st') →
  neighborsCount width height st cx cy = neighborsCount width height st' cx cy.
Proof.
  intros H. unfold neighborsCount. apply foldl_pointwise. intros count [ox oy] _.
  destruct (wrapCoord width height (cx + ox) (cy + oy)) as [nx ny] eqn:E.
  apply (wrapCoord_range width height) in E as [Hx Hy]; [| done | done].
  assert (G : encodesGridCell width height (packCoord nx ny)) by (by exists nx, ny).
  unfold Set_has. by rewrite (bool_decide_ext _ _ (H _ G)).
Qed.

End CountLaws.

Lemma neighborsCount_grid_keys_only_witness :
  neighborsCount 10 10 (resetGame initial) 0 0
  = neighborsCount 10 10 (insertCell 10 0 (resetGame initial)) 0 0.
Proof.
  apply (neighborsCount_grid_keys_only 10 10); [lia | lia |].
  intros k (a & b & Ha & Hb & ->).
  change (active (resetGame initial)) with (@nil Z).
  change (active (insertCell 10 0 (resetGame initial))) with [10].
  rewrite elem_of_nil, list_elem_of_singleton, packCoord_sum by lia.
  split; [done | lia].
Defined.

Lemma neighborsCount_bounds_witness : 0 ≤ neighborsCount 10 10 corner 2 2 ≤ 8.
Proof. apply (neighborsCount_bounds 10 10); lia. Defined.

Lemma neighborsCount_periodic_witness :
  neighborsCount 10 10 corner (2 + 1 * 10) (2 + -3 * 10) = neighborsCount 10 10 corner 2 2.
Proof. apply (neighborsCount_periodic 10 10); lia. Defined.

(** ** More on [simulate] *)

Section StepLaws.

Variables width height : Z.
Hypothesis width_pos : 0 < width.
Hypothesis height_pos : 0 < height.

Abbreviation simulate := (simulate width height).
Abbreviation steps := (steps width height).

(** Any number of [simulate] calls in a row returns; the generation grows by
    that number; no key ever leaves the potential set, which is only
    appended to; and after the first call both potential variables name one
    object. *)
Theorem steps_accumulate (n : nat) (st : state) :
  wf st →
  ∃ st',
    steps n st = Some st'
    ∧ wf st'
    ∧ generation st' = generation st + Z.of_nat n
    ∧ (∃ more, potentialNext st' = potentialNext st ++ more)
    ∧ ((0 < n)%nat → potentialCells st' = potentialCellsNext st').
Proof.
  revert st. induction n as [| n IH]; intros st W.
  - exists st. split; [done |]. split; [done |]. split; [simpl; lia |].
    split; [exists []; by rewrite app_nil_r | lia].
  - destruct (simulate_spec width height width_pos height_pos st W) as (st1 & E1 & S1).
    destruct (IH st1 (sim_wf _ _ _ _ S1)) as (st' & E' & W' & G' & [more' P'] & A').
    exists st'. split; [simpl; rewrite E1; exact E' |]. split; [done |].
    split; [rewrite G', (sim_gen _ _ _ _ S1); lia |].
    destruct (sim_grow _ _ _ _ S1) as [more1 P1].
    split.
    + exists (more1 ++ more'). rewrite P', (sim_alias _ _ _ _ S1), P1.
      by rewrite app_assoc.
    + intros _. destruct n as [| n].
      * simpl in E'. injection E' as <-.
        by rewrite (sim_pc _ _ _ _ S1), (sim_pn _ _ _ _ S1).
      * apply A'. lia.
Qed.

Lemma forOf_idle (fuel i : nat) (st : state) :
  (∀ cell, visit width height cell st = st) →
  (i ≤ length (potential st))%nat →
  (length (potential st) < fuel + i)%nat →
  forOf width height fuel i st = Some st.
Proof.
  intros Hidle. revert i. induction fuel as [| fuel IH]; intros i Hi Hlen; simpl.
  - lia.
  - destruct (potential st !! i) as [cell |] eqn:E; [| done].
    apply lookup_lt_Some in E. rewrite Hidle. apply IH; lia.
Qed.

(** With an empty next active set nothing is born: [simulate] leaves both
    active sets empty and adds no key to the potential set, however many
    keys that set holds. *)
Theorem simulate_dead (st : state) :
  wf st → activeNext st = [] →
  ∃ st',
    simulate st = Some st'
    ∧ active st' = [] ∧ activeNext st' = []
    ∧ potentialNext st' = potentialNext st
    ∧ generation st' = generation st + 1.
Proof.
  pose proof width_pos as _. pose proof height_pos as _. intros W EN.
  assert (EA : active (promote st) = []) by (by rewrite active_promote).
  assert (Hidle : ∀ cell, visit width height cell (promote st) = promote st).
  { intros cell. apply visit_idle.
    - rewrite EA. apply not_elem_of_nil.
    - destruct (unpackCoord width height cell) as [x y].
      rewrite (neighborsCount_zero width height); [done |].
      intros ox oy _. destruct (wrapCoord width height _ _).
      rewrite EA. apply not_elem_of_nil. }
  exists (bump (promote st)). split.
  - unfold simulate, simulateFuel. rewrite (forOf_idle _ _ _ Hidle); [done | lia |].
    unfold gas. destruct W.
    unfold potential, potentialNext. simpl. rewrite deref_app_l by done. lia.
  - change (active (bump ?s)) with (active s).
    change (activeNext (bump ?s)) with (activeNext s).
    change (potentialNext (bump ?s)) with (potentialNext s).
    rewrite EA, activeNext_promote, potentialNext_promote by done. done.
Qed.

(** [simulate] reads the next active set and the next potential set and
    nothing else: two states that agree on these two sets give states that
    agree on all three sets, whatever their current active sets held. *)
Theorem simulate_reads_next_sets (st c : state) :
  wf st → wf c →
  activeNext st = activeNext c → potentialNext st = potentialNext c →
  ∃ st' c',
    simulate st = Some st' ∧ simulate c = Some c'
    ∧ active st' = active c' ∧ activeNext st' = activeNext c'
    ∧ potentialNext st' = potentialNext c'.
Proof.
  intros W W' EN EP.
  destruct (simulate_spec width height width_pos height_pos st W) as (st' & E & _).
  destruct (simulate_views width height st c st' W W' EN EP E) as (c' & Ec & H).
  by exists st', c'.
Qed.

(** What a step leaves for the next one.  For every key the loop visited: if
    it was born, the keys of all nine cells of its neighbourhood on the torus
    are in the potential set, and they are keys of grid cells; if it died,
    the nine keys packed from the raw offsets are in the potential set. *)
Theorem simulate_neighbourhoods (st : state) :
  wf st →
  ∃ st',
    simulate st = Some st'
    ∧ ∀ cell x y nx ny,
        cell ∈ potential st' → unpackCoord width height cell = (x, y) →
        nx ∈ span → ny ∈ span →
        (cell ∉ active st' → neighborsCount width height st' x y = 3 →
         wrappedKey width height x y nx ny ∈ potentialNext st'
         ∧ encodesGridCell width height (wrappedKey width height x y nx ny))
        ∧ (cell ∈ active st' →
           neighborsCount width height st' x y ≠ 2 →
           neighborsCount width height st' x y ≠ 3 →
           packCoord (x + nx) (y + ny) ∈ potentialNext st').
Proof.
  intros W.
  destruct (simulate_spec width height width_pos height_pos st W) as (st' & E & _).
  exists st'. split; [done |]. intros cell x y nx ny Hc Hu Hx Hy. split.
  - intros Ha Hn. split.
    + by apply (birth_stimulates_torus width height st st' cell x y).
    + unfold wrappedKey.
      destruct (wrapCoord width height (x + nx) (y + ny)) as [wx wy] eqn:Ew.
      apply (wrapCoord_range width height) in Ew as [? ?]; [| done | done].
      by exists wx, wy.
  - intros Ha H2 H3. by apply (death_stimulates_raw width height st st' cell x y).
Qed.

End StepLaws.

Lemma steps_accumulate_witness :
  ∃ st',
    steps 10 10 3 corner = Some st'
    ∧ wf st'
    ∧ generation st' = generation corner + Z.of_nat 3
    ∧ (∃ more, potentialNext st' = potentialNext corner ++ more)
    ∧ ((0 < 3)%nat → potentialCells st' = potentialCellsNext st').
Proof.
  apply (steps_accumulate 10 10); [lia | lia | split; vm_compute; lia].
Defined.

Lemma simulate_dead_witness :
  ∃ st',
    simulate 10 10 (potentialCellsNext_add 5 (resetGame initial)) = Some st'
    ∧ active st' = [] ∧ activeNext st' = []
    ∧ potentialNext st' = potentialNext (potentialCellsNext_add 5 (resetGame initial))
    ∧ generation st' = generation (potentialCellsNext_add 5 (resetGame initial)) + 1.
Proof.
  apply (simulate_dead 10 10); [lia | lia | split; vm_compute; lia | reflexivity].
Defined.

Lemma simulate_reads_next_sets_witness :
  active corner ≠ active cornerPlus
  ∧ ∃ st' c',
      simulate 10 10 corner = Some st' ∧ simulate 10 10 cornerPlus = Some c'
      ∧ active st' = active c' ∧ activeNext st' = activeNext c'
      ∧ potentialNext st' = potentialNext c'.
Proof.
  split; [vm_compute; discriminate |].
  apply (simulate_reads_next_sets 10 10);
    [lia | lia | split; vm_compute; lia | split; vm_compute; lia
    | reflexivity | reflexivity].
Defined.

Lemma simulate_neighbourhoods_witness :
  ∃ st',
    simulate 10 10 corner = Some st'
    ∧ ∀ cell x y nx ny,
        cell ∈ potential st' → unpackCoord 10 10 cell = (x, y) →
        nx ∈ span → ny ∈ span →
        (cell ∉ active st' → neighborsCount 10 10 st' x y = 3 →
         wrappedKey 10 10 x y nx ny ∈ potentialNext st'
         ∧ encodesGridCell 10 10 (wrappedKey 10 10 x y nx ny))
        ∧ (cell ∈ active st' →
           neighborsCount 10 10 st' x y ≠ 2 →
           neighborsCount 10 10 st' x y ≠ 3 →
           packCoord (x + nx) (y + ny) ∈ potentialNext st').
Proof.
  apply (simulate_neighbourhoods 10 10); [lia | lia | split; vm_compute; lia].
Defined.

(** ** Runs of [insertCell]: pattern stamps *)

Lemma elem_of_neighbourhood_iff (f : Z → Z → Z) (k : Z) :
  k ∈ neighbourhood f ↔ ∃ nx ny, nx ∈ span ∧ ny ∈ span ∧ k = f nx ny.
Proof.
  unfold neighbourhood. rewrite list_elem_of_bind. split.
  - intros (ny & (nx & Hk%list_elem_of_singleton & Hx)%list_elem_of_bind & Hy).
    by exists nx, ny.
  - intros (nx & ny & Hx & Hy & ->). exists ny. split; [| done].
    apply list_elem_of_bind. exists nx. split; [| done].
    by apply list_elem_of_singleton.
Qed.

Lemma foldl_Set_add_length (ks s : list Z) :
  NoDup ks → (∀ k, k ∈ ks → k ∉ s) →
  length (foldl (λ s k, Set_add k s) s ks) = (length s + length ks)%nat.
Proof.
  revert s. induction ks as [| k ks IH]; intros s ND Hs; simpl; [lia |].
  apply list.NoDup_cons in ND as [Hk ND].
  rewrite Set_add_absent by (apply Hs, list_elem_of_here).
  rewrite IH; [rewrite List.length_app; simpl; lia | done |].
  intros k' Hk' [Hin | ->%list_elem_of_singleton]%elem_of_app; [| done].
  by apply (Hs k'); [apply list_elem_of_further |].
Qed.

(** The sets after a run of [insertCell] calls. *)
Lemma insertCells_views (cells : list (Z * Z)) (st : state) :
  wf st →
  Added st (insertCells cells st)
        (foldl (λ s k, Set_add k s) (active st) (keyOf <$> cells))
        (foldl (λ s k, Set_add k s) (activeNext st) (keyOf <$> cells))
        (foldl (λ s k, Set_add k s) (potentialNext st)
               (cells ≫= λ c, neighbourhood (λ nx ny, packCoord (c.1 + nx) (c.2 + ny)))).
Proof.
  revert st. induction cells as [| [x y] cells IH]; intros st W.
  - by apply Added_refl.
  - pose proof (insertCell_views x y st W) as H1.
    pose proof (IH _ (added_wf _ _ _ _ _ H1)) as H2.
    change (insertCells ((x, y) :: cells) st) with (insertCells cells (insertCell x y st)).
    rewrite (added_active _ _ _ _ _ H1), (added_next _ _ _ _ _ H1),
      (added_potential _ _ _ _ _ H1) in H2.
    exact (Added_trans _ _ _ _ _ _ _ _ _ H1 H2).
Qed.

Lemma insertCells_app (a b : list (Z * Z)) (st : state) :
  insertCells (a ++ b) st = insertCells b (insertCells a st).
Proof. unfold insertCells. apply foldl_app. Qed.

Lemma insertLine_cells (x y c : Z) (line : string) (st : state) :
  insertLine x y c line st = insertCells (lineCells x y c line) st.
Proof.
  revert c st. induction line as [| ch rest IH]; intros c st; simpl; [done |].
  rewrite IH, insertCells_app. by destruct (Ascii.eqb ch "#").
Qed.

Lemma insertCellPattern_cells (x y : Z) (pattern : list string) (st : state) :
  insertCellPattern x y pattern st = insertCells (rowCells x y 0 pattern) st.
Proof.
  unfold insertCellPattern. generalize 0 as l. revert st.
  induction pattern as [| line rest IH]; intros st l; simpl; [done |].
  by rewrite IH, insertLine_cells, insertCells_app.
Qed.

Lemma elem_of_lineCells (x y c : Z) (line : string) (cx cy : Z) :
  (cx, cy) ∈ lineCells x y c line
  ↔ ∃ i : nat, String.get i line = Some "#"%char ∧ cx = x + c + Z.of_nat i ∧ cy = y.
Proof.
  revert c. induction line as [| ch rest IH]; intros c; simpl.
  - rewrite elem_of_nil. split; [done | intros (i & H & _); by destruct i].
  - rewrite elem_of_app, IH. split.
    + intros [H | (i & Hi & -> & ->)].
      * destruct (Ascii.eqb ch "#") eqn:E; [| by apply elem_of_nil in H].
        apply Ascii.eqb_eq in E as ->. apply list_elem_of_singleton in H as [= -> ->].
        exists 0%nat. split; [done | lia].
      * exists (S i). split; [done | lia].
    + intros ([| i] & Hi & -> & ->).
      * left. simpl in Hi. injection Hi as ->. simpl.
        apply list_elem_of_singleton. f_equal. lia.
      * right. exists i. split; [done | lia].
Qed.

Lemma elem_of_rowCells (x y l : Z) (pattern : list string) (cx cy : Z) :
  (cx, cy) ∈ rowCells x y l pattern
  ↔ ∃ (j i : nat) (line : string),
      pattern !! j = Some line ∧ String.get i line = Some "#"%char
      ∧ cx = x + Z.of_nat i ∧ cy = y + l + Z.of_nat j.
Proof.
  revert l. induction pattern as [| line rest IH]; intros l; simpl.
  - rewrite elem_of_nil. split; [done | intros (j & i & ln & H & _); by destruct j].
  - rewrite elem_of_app, elem_of_lineCells, IH. split.
    + intros [(i & Hi & -> & ->) | (j & i & ln & Hj & Hi & -> & ->)].
      * exists 0%nat, i, line. split; [done |]. split; [done | lia].
      * exists (S j), i, ln. split; [done |]. split; [done | lia].
    + intros ([| j] & i & ln & Hj & Hi & -> & ->).
      * left. simpl in Hj. injection Hj as ->. exists i. split; [done | lia].
      * right. exists j, i, ln. split; [done |]. split; [done | lia].
Qed.

Lemma get_lt_length (i : nat) (line : string) (ch : ascii) :
  String.get i line = Some ch → (i < String.length line)%nat.
Proof.
  revert i. induction line as [| c rest IH]; intros i; simpl; [by destruct i |].
  destruct i as [| i]; [lia |]. intros H%IH. lia.
Qed.

Lemma NoDup_lineCells (x y c : Z) (line : string) : NoDup (lineCells x y c line).
Proof.
  revert c. induction line as [| ch rest IH]; intros c; simpl; [constructor |].
  apply list.NoDup_app. split; [| split; [| apply IH]].
  - destruct (Ascii.eqb ch "#"); [apply NoDup_singleton | constructor].
  - intros [cx cy] H (i & _ & E & _)%elem_of_lineCells.
    destruct (Ascii.eqb ch "#"); [| by apply elem_of_nil in H].
    apply list_elem_of_singleton in H as [= -> ->]. lia.
Qed.

Lemma NoDup_rowCells (x y l : Z) (pattern : list string) : NoDup (rowCells x y l pattern).
Proof.
  revert l. induction pattern as [| line rest IH]; intros l; simpl; [constructor |].
  apply list.NoDup_app. split; [apply NoDup_lineCells | split; [| apply IH]].
  intros [cx cy] (i & _ & _ & E)%elem_of_lineCells (j & i' & ln & _ & _ & _ & E')%elem_of_rowCells.
  lia.
Qed.

Lemma length_lineCells (x y c : Z) (line : string) :
  length (lineCells x y c line) = hashes line.
Proof.
  revert c. induction line as [| ch rest IH]; intros c; simpl; [done |].
  rewrite List.length_app, IH. by destruct (Ascii.eqb ch "#").
Qed.

Lemma length_rowCells (x y l : Z) (pattern : list string) :
  length (rowCells x y l pattern) = countMarks pattern.
Proof.
  unfold countMarks. revert l. induction pattern as [| line rest IH]; intros l; simpl; [done |].
  by rewrite List.length_app, length_lineCells, IH.
Qed.

(** [insertCell] on a well-formed state: it adds the packed key of its
    argument to both active sets, adds the nine keys packed from the raw
    offsets to the next potential set, removes no key and leaves the
    generation alone. *)
Theorem insertCell_effect (x y : Z) (st : state) :
  wf st →
  wf (insertCell x y st)
  ∧ generation (insertCell x y st) = generation st
  ∧ (∀ k, k ∈ active (insertCell x y st) ↔ k = packCoord x y ∨ k ∈ active st)
  ∧ (∀ k, k ∈ activeNext (insertCell x y st) ↔ k = packCoord x y ∨ k ∈ activeNext st)
  ∧ (∀ k, k ∈ potentialNext (insertCell x y st)
          ↔ (∃ nx ny, nx ∈ span ∧ ny ∈ span ∧ k = packCoord (x + nx) (y + ny))
            ∨ k ∈ potentialNext st).
Proof.
  intros W. destruct (insertCell_views x y st W) as [W' _ _ _ _ G EA EN EP].
  split; [done |]. split; [done |].
  rewrite EA, EN, EP. split; [| split]; intros k.
  - apply elem_of_Set_add.
  - apply elem_of_Set_add.
  - by rewrite elem_of_foldl_Set_add, elem_of_neighbourhood_iff.
Qed.

Lemma insertCell_effect_witness :
  wf (insertCell 3 3 corner)
  ∧ generation (insertCell 3 3 corner) = generation corner
  ∧ (∀ k, k ∈ active (insertCell 3 3 corner) ↔ k = packCoord 3 3 ∨ k ∈ active corner)
  ∧ (∀ k, k ∈ activeNext (insertCell 3 3 corner)
          ↔ k = packCoord 3 3 ∨ k ∈ activeNext corner)
  ∧ (∀ k, k ∈ potentialNext (insertCell 3 3 corner)
          ↔ (∃ nx ny, nx ∈ span ∧ ny ∈ span ∧ k = packCoord (3 + nx) (3 + ny))
            ∨ k ∈ potentialNext corner).
Proof. apply (insertCell_effect 3 3 corner). split; vm_compute; lia. Defined.

(** Away from the rim of the grid the keys [insertCell] adds to the potential
    set are the keys of the nine cells of the neighbourhood on the torus:
    each is the key the birth branch would pack, is the key of a grid cell,
    and decodes to the neighbour itself. *)
Theorem insertCell_interior (width height x y nx ny : Z) (st : state) :
  0 < width ≤ 2 ^ 32 → 0 < height →
  1 ≤ x ≤ width - 2 → 1 ≤ y ≤ height - 2 →
  nx ∈ span → ny ∈ span → wf st →
  packCoord (x + nx) (y + ny) ∈ potentialNext (insertCell x y st)
  ∧ packCoord (x + nx) (y + ny) = wrappedKey width height x y nx ny
  ∧ encodesGridCell width height (packCoord (x + nx) (y + ny))
  ∧ unpackCoord width height (packCoord (x + nx) (y + ny)) = (x + nx, y + ny).
Proof.
  intros Hw Hh Hx Hy Hnx Hny W.
  pose proof (span_bound nx Hnx). pose proof (span_bound ny Hny).
  destruct (insertCell_views x y st W) as [_ _ _ _ _ _ _ _ EP].
  split; [| split; [| split]].
  - rewrite EP. apply elem_of_foldl_Set_add. left.
    apply elem_of_neighbourhood_iff. by exists nx, ny.
  - unfold wrappedKey. by rewrite wrapCoord_id by lia.
  - exists (x + nx), (y + ny). split; [lia |]. split; [lia | done].
  - rewrite unpackCoord_packCoord by lia. apply wrapCoord_id; lia.
Qed.

Lemma insertCell_interior_witness :
  packCoord (1 + -1) (8 + 1) ∈ potentialNext (insertCell 1 8 corner)
  ∧ packCoord (1 + -1) (8 + 1) = wrappedKey 10 10 1 8 (-1) 1
  ∧ encodesGridCell 10 10 (packCoord (1 + -1) (8 + 1))
  ∧ unpackCoord 10 10 (packCoord (1 + -1) (8 + 1)) = (1 + -1, 8 + 1).
Proof.
  apply (insertCell_interior 10 10 1 8 (-1) 1 corner);
    [lia | lia | lia | lia | | | split; vm_compute; lia];
    unfold span; repeat first [apply list_elem_of_here | apply list_elem_of_further].
Defined.

Lemma pattern_views (x y : Z) (pattern : list string) (st : state) :
  wf st →
  wf (insertCellPattern x y pattern st)
  ∧ generation (insertCellPattern x y pattern st) = generation st
  ∧ active (insertCellPattern x y pattern st)
    = foldl (λ s k, Set_add k s) (active st) (keyOf <$> rowCells x y 0 pattern)
  ∧ activeNext (insertCellPattern x y pattern st)
    = foldl (λ s k, Set_add k s) (activeNext st) (keyOf <$> rowCells x y 0 pattern).
Proof.
  intros W. rewrite insertCellPattern_cells.
  by destruct (insertCells_views (rowCells x y 0 pattern) st W) as [? _ _ _ _ ? ? ? _].
Qed.

Lemma elem_of_pattern_keys (x y : Z) (pattern : list string) (k : Z) :
  k ∈ keyOf <$> rowCells x y 0 pattern
  ↔ ∃ (l c : nat) (line : string),
      pattern !! l = Some line ∧ String.get c line = Some "#"%char
      ∧ k = packCoord (x + Z.of_nat c) (y + Z.of_nat l).
Proof.
  rewrite list_elem_of_fmap. split.
  - intros ([cx cy] & -> & (j & i & ln & Hj & Hi & -> & ->)%elem_of_rowCells).
    exists j, i, ln. split; [done |]. split; [done |].
    unfold keyOf. simpl. f_equal. lia.
  - intros (l & c & ln & Hl & Hc & ->).
    exists (x + Z.of_nat c, y + Z.of_nat l). split; [done |].
    apply elem_of_rowCells. exists l, c, ln. split; [done |]. split; [done | lia].
Qed.

(** [insertCellPattern] marks, in both active sets, exactly the packed keys
    of the [#] characters, column index added to [x] and row index to [y];
    other characters, empty rows and an empty pattern mark nothing; no key
    is removed and the generation is unchanged. *)
Theorem insertCellPattern_members (x y : Z) (pattern : list string) (st : state) :
  wf st →
  wf (insertCellPattern x y pattern st)
  ∧ generation (insertCellPattern x y pattern st) = generation st
  ∧ (∀ k, k ∈ active (insertCellPattern x y pattern st)
          ↔ (∃ (l c : nat) (line : string),
               pattern !! l = Some line ∧ String.get c line = Some "#"%char
               ∧ k = packCoord (x + Z.of_nat c) (y + Z.of_nat l))
            ∨ k ∈ active st)
  ∧ (∀ k, k ∈ activeNext (insertCellPattern x y pattern st)
          ↔ (∃ (l c : nat) (line : string),
               pattern !! l = Some line ∧ String.get c line = Some "#"%char
               ∧ k = packCoord (x + Z.of_nat c) (y + Z.of_nat l))
            ∨ k ∈ activeNext st).
Proof.
  intros W. destruct (pattern_views x y pattern st W) as (W' & G & EA & EN).
  split; [done |]. split; [done |]. rewrite EA, EN.
  split; intros k; by rewrite elem_of_foldl_Set_add, elem_of_pattern_keys.
Qed.

Lemma insertCellPattern_members_witness :
  wf (insertCellPattern 2 3 [" #"; ""; "# "]%string corner)
  ∧ generation (insertCellPattern 2 3 [" #"; ""; "# "]%string corner) = generation corner
  ∧ (∀ k, k ∈ active (insertCellPattern 2 3 [" #"; ""; "# "]%string corner)
          ↔ (∃ (l c : nat) (line : string),
               [" #"; ""; "# "]%string !! l = Some line
               ∧ String.get c line = Some "#"%char
               ∧ k = packCoord (2 + Z.of_nat c) (3 + Z.of_nat l))
            ∨ k ∈ active corner)
  ∧ (∀ k, k ∈ activeNext (insertCellPattern 2 3 [" #"; ""; "# "]%string corner)
          ↔ (∃ (l c : nat) (line : string),
               [" #"; ""; "# "]%string !! l = Some line
               ∧ String.get c line = Some "#"%char
               ∧ k = packCoord (2 + Z.of_nat c) (3 + Z.of_nat l))
            ∨ k ∈ activeNext corner).
Proof.
  apply (insertCellPattern_members 2 3 [" #"; ""; "# "]%string corner).
  split; vm_compute; lia.
Defined.

Lemma NoDup_pattern_keys (x y : Z) (pattern : list string) :
  0 ≤ x →
  (∀ line, line ∈ pattern → x + Z.of_nat (String.length line) ≤ 2 ^ 32) →
  NoDup (keyOf <$> rowCells x y 0 pattern).
Proof.
  intros Hx Hlen. apply NoDup_fmap_2_strong; [| apply NoDup_rowCells].
  assert (R : ∀ cx cy, (cx, cy) ∈ rowCells x y 0 pattern → 0 ≤ cx < 2 ^ 32).
  { intros cx cy (j & i & ln & Hj & Hi & -> & _)%elem_of_rowCells.
    apply get_lt_length in Hi.
    pose proof (Hlen ln (list_elem_of_lookup_2 _ _ _ Hj)). lia. }
  intros [cx cy] [cx' cy'] H H' E. unfold keyOf in E. simpl in E.
  apply packCoord_inj in E as [-> ->]; [done | by eapply R | by eapply R].
Qed.

Lemma pattern_count (x y : Z) (pattern : list string) (st : state) :
  wf st → 0 ≤ x →
  (∀ line, line ∈ pattern → x + Z.of_nat (String.length line) ≤ 2 ^ 32) →
  (∀ k, k ∈ keyOf <$> rowCells x y 0 pattern → k ∉ active st) →
  length (active (insertCellPattern x y pattern st))
  = (length (active st) + countMarks pattern)%nat.
Proof.
  intros W Hx Hlen Hnew. destruct (pattern_views x y pattern st W) as (_ & _ & EA & _).
  rewrite EA, foldl_Set_add_length; [| by apply NoDup_pattern_keys | done].
  by rewrite length_fmap, length_rowCells.
Qed.

Lemma pattern_count_next (x y : Z) (pattern : list string) (st : state) :
  wf st → 0 ≤ x →
  (∀ line, line ∈ pattern → x + Z.of_nat (String.length line) ≤ 2 ^ 32) →
  (∀ k, k ∈ keyOf <$> rowCells x y 0 pattern → k ∉ activeNext st) →
  length (activeNext (insertCellPattern x y pattern st))
  = (length (activeNext st) + countMarks pattern)%nat.
Proof.
  intros W Hx Hlen Hnew. destruct (pattern_views x y pattern st W) as (_ & _ & _ & EN).
  rewrite EN, foldl_Set_add_length; [| by apply NoDup_pattern_keys | done].
  by rewrite length_fmap, length_rowCells.
Qed.

(** A pattern of N [#] characters stamped with [x] and the rows inside the
    32-bit field, none of them on a key that is already active, adds exactly
    N keys to the current active set: [activeCells.size] grows by N, and the
    generation is unchanged. *)
Theorem insertCellPattern_count (x y : Z) (pattern : list string) (st : state) :
  wf st → 0 ≤ x →
  (∀ line, line ∈ pattern → x + Z.of_nat (String.length line) ≤ 2 ^ 32) →
  (∀ (l c : nat) (line : string),
     pattern !! l = Some line → String.get c line = Some "#"%char →
     packCoord (x + Z.of_nat c) (y + Z.of_nat l) ∉ active st) →
  length (active (insertCellPattern x y pattern st))
  = (length (active st) + countMarks pattern)%nat
  ∧ generation (insertCellPattern x y pattern st) = generation st.
Proof.
  intros W Hx Hlen Hnew. split.
  - rewrite (pattern_count x y pattern st W Hx Hlen); [done |].
    intros k (l & c & ln & Hl & Hc & ->)%elem_of_pattern_keys. by eapply Hnew.
  - by destruct (pattern_views x y pattern st W) as (_ & -> & _ & _).
Qed.

Lemma insertCellPattern_count_witness :
  length (active (insertCellPattern 2 3 [" #"; ""; "##"]%string (resetGame corner)))
  = (length (active (resetGame corner)) + countMarks [" #"; ""; "##"]%string)%nat
  ∧ generation (insertCellPattern 2 3 [" #"; ""; "##"]%string (resetGame corner))
    = generation (resetGame corner).
Proof.
  apply (insertCellPattern_count 2 3 [" #"; ""; "##"]%string (resetGame corner)).
  - split; vm_compute; lia.
  - lia.
  - intros line Hl. repeat (apply elem_of_cons in Hl as [-> | Hl]; [simpl; lia |]).
    by apply elem_of_nil in Hl.
  - intros l c line _ _. change (active (resetGame corner)) with (@nil Z).
    apply not_elem_of_nil.
Defined.

(** The [o] key after a reset: wherever the mouse is, with [x] from 0 to
    2^32 - 36, both active sets hold exactly 36 keys after the stamp and the
    generation is 0. *)
Theorem pressO_after_reset (mx my : Z) (st0 : state) :
  0 ≤ mx ≤ 2 ^ 32 - 36 →
  length (active (pressO (mx, my) (resetGame st0))) = 36%nat
  ∧ length (activeNext (pressO (mx, my) (resetGame st0))) = 36%nat
  ∧ generation (pressO (mx, my) (resetGame st0)) = 0.
Proof.
  intros Hx. unfold pressO. simpl fst. simpl snd.
  destruct (resetGame_empty st0) as (EA & EN & _ & _ & EG).
  assert (F : Forall (λ line, String.length line = 36%nat) gun) by (repeat constructor).
  assert (Hlen : ∀ line, line ∈ gun → mx + Z.of_nat (String.length line) ≤ 2 ^ 32).
  { intros line Hl. rewrite (proj1 (list.Forall_forall _ _) F line Hl). lia. }
  split; [| split].
  - rewrite (pattern_count mx my gun _ (wf_resetGame st0)); [by rewrite EA | lia | done |].
    intros k _. rewrite EA. apply not_elem_of_nil.
  - rewrite (pattern_count_next mx my gun _ (wf_resetGame st0));
      [by rewrite EN | lia | done |].
    intros k _. rewrite EN. apply not_elem_of_nil.
  - by destruct (pattern_views mx my gun _ (wf_resetGame st0)) as (_ & -> & _ & _).
Qed.

Lemma pressO_after_reset_witness :
  length (active (pressO (200, 50) (resetGame corner))) = 36%nat
  ∧ length (activeNext (pressO (200, 50) (resetGame corner))) = 36%nat
  ∧ generation (pressO (200, 50) (resetGame corner)) = 0.
Proof. apply (pressO_after_reset 200 50 corner). lia. Defined.

(** ** The random fill of the [e] key *)

Lemma elem_of_fillRange (m limit x : Z) :
  x ∈ fillRange m limit ↔ Z.max (m - 25) 0 ≤ x ≤ Z.min (m + 25) limit.
Proof. unfold fillRange. rewrite elem_of_seqZ. lia. Qed.

Lemma randomFill_cells (width height : Z) (skip : Z → Z → bool)
    (mousePos : Z * Z) (st : state) :
  randomFill width height skip mousePos st
  = insertCells (fillCells width height skip mousePos) st.
Proof.
  unfold randomFill, fillCells.
  generalize (fillRange mousePos.2 height) as ys. intros ys. revert st.
  induction ys as [| y ys IH]; intros st; [done |].
  cbn [foldl]. rewrite IH. csimpl. rewrite insertCells_app. f_equal.
  generalize (fillRange mousePos.1 width) as xs. intros xs. clear IH. revert st.
  induction xs as [| x xs IHx]; intros st; [done |].
  cbn [foldl]. rewrite IHx. csimpl. rewrite insertCells_app.
  by destruct (skip x y).
Qed.

Lemma elem_of_fillCells (width height : Z) (skip : Z → Z → bool)
    (mousePos : Z * Z) (x y : Z) :
  (x, y) ∈ fillCells width height skip mousePos
  ↔ x ∈ fillRange mousePos.1 width ∧ y ∈ fillRange mousePos.2 height
    ∧ skip x y = false.
Proof.
  unfold fillCells. rewrite list_elem_of_bind. split.
  - intros (y' & (x' & H & Hx)%list_elem_of_bind & Hy).
    destruct (skip x' y') eqn:E; [by apply elem_of_nil in H |].
    by apply list_elem_of_singleton in H as [= -> ->].
  - intros (Hx & Hy & E). exists y. split; [| done].
    apply list_elem_of_bind. exists x. split; [| done].
    rewrite E. by apply list_elem_of_singleton.
Qed.

Lemma elem_of_fill_keys (width height : Z) (skip : Z → Z → bool)
    (mousePos : Z * Z) (k : Z) :
  k ∈ keyOf <$> fillCells width height skip mousePos
  ↔ ∃ x y,
      Z.max (mousePos.1 - 25) 0 ≤ x ≤ Z.min (mousePos.1 + 25) width
      ∧ Z.max (mousePos.2 - 25) 0 ≤ y ≤ Z.min (mousePos.2 + 25) height
      ∧ skip x y = false ∧ k = packCoord x y.
Proof.
  rewrite list_elem_of_fmap. split.
  - intros ([x y] & -> & (Hx & Hy & E)%elem_of_fillCells).
    apply elem_of_fillRange in Hx, Hy. by exists x, y.
  - intros (x & y & Hx & Hy & E & ->). exists (x, y). split; [done |].
    apply elem_of_fillCells. by rewrite !elem_of_fillRange.
Qed.

Lemma randomFill_views (width height : Z) (skip : Z → Z → bool)
    (mousePos : Z * Z) (st : state) :
  wf st →
  wf (randomFill width height skip mousePos st)
  ∧ generation (randomFill width height skip mousePos st) = generation st
  ∧ active (randomFill width height skip mousePos st)
    = foldl (λ s k, Set_add k s) (active st)
            (keyOf <$> fillCells width height skip mousePos)
  ∧ activeNext (randomFill width height skip mousePos st)
    = foldl (λ s k, Set_add k s) (activeNext st)
            (keyOf <$> fillCells width height skip mousePos).
Proof.
  intros W. rewrite randomFill_cells.
  by destruct (insertCells_views (fillCells width height skip mousePos) st W)
    as [? _ _ _ _ ? ? ? _].
Qed.

(** The [e] key marks, in both active sets, exactly the packed keys of the
    positions the coin did not skip, [x] from [max(mx - 25, 0)] to
    [min(mx + 25, width)] and [y] from [max(my - 25, 0)] to
    [min(my + 25, height)], both ends included; it removes no key and leaves
    the generation alone. *)
Theorem randomFill_members (width height : Z) (skip : Z → Z → bool)
    (mx my : Z) (st : state) :
  wf st →
  wf (randomFill width height skip (mx, my) st)
  ∧ generation (randomFill width height skip (mx, my) st) = generation st
  ∧ (∀ k, k ∈ active (randomFill width height skip (mx, my) st)
          ↔ (∃ x y,
               Z.max (mx - 25) 0 ≤ x ≤ Z.min (mx + 25) width
               ∧ Z.max (my - 25) 0 ≤ y ≤ Z.min (my + 25) height
               ∧ skip x y = false ∧ k = packCoord x y)
            ∨ k ∈ active st)
  ∧ (∀ k, k ∈ activeNext (randomFill width height skip (mx, my) st)
          ↔ (∃ x y,
               Z.max (mx - 25) 0 ≤ x ≤ Z.min (mx + 25) width
               ∧ Z.max (my - 25) 0 ≤ y ≤ Z.min (my + 25) height
               ∧ skip x y = false ∧ k = packCoord x y)
            ∨ k ∈ activeNext st).
Proof.
  intros W.
  destruct (randomFill_views width height skip (mx, my) st W) as (W' & G & EA & EN).
  split; [done |]. split; [done |]. rewrite EA, EN.
  split; intros k; by rewrite elem_of_foldl_Set_add, elem_of_fill_keys.
Qed.

Lemma randomFill_members_witness :
  wf (randomFill 10 10 (λ x y, Z.even (x + y)) (4, 4) corner)
  ∧ generation (randomFill 10 10 (λ x y, Z.even (x + y)) (4, 4) corner)
    = generation corner
  ∧ (∀ k, k ∈ active (randomFill 10 10 (λ x y, Z.even (x + y)) (4, 4) corner)
          ↔ (∃ x y,
               Z.max (4 - 25) 0 ≤ x ≤ Z.min (4 + 25) 10
               ∧ Z.max (4 - 25) 0 ≤ y ≤ Z.min (4 + 25) 10
               ∧ Z.even (x + y) = false ∧ k = packCoord x y)
            ∨ k ∈ active corner)
  ∧ (∀ k, k ∈ activeNext (randomFill 10 10 (λ x y, Z.even (x + y)) (4, 4) corner)
          ↔ (∃ x y,
               Z.max (4 - 25) 0 ≤ x ≤ Z.min (4 + 25) 10
               ∧ Z.max (4 - 25) 0 ≤ y ≤ Z.min (4 + 25) 10
               ∧ Z.even (x + y) = false ∧ k = packCoord x y)
            ∨ k ∈ activeNext corner).
Proof.
  apply (randomFill_members 10 10 (λ x y, Z.even (x + y)) 4 4 corner).
  split; vm_compute; lia.
Defined.

(** The upper bounds of the [e] key are [width] and [height] themselves:
    with the mouse within 25 cells of the right edge, every position of
    column [width] that the coin does not skip is marked, under a key that
    is not the key of a grid cell and that decodes to column 0. *)
Theorem randomFill_right_edge (width height : Z) (skip : Z → Z → bool)
    (mx my y : Z) (st : state) :
  0 < width < 2 ^ 32 → 0 < height → wf st →
  width - 25 ≤ mx ≤ width + 25 →
  Z.max (my - 25) 0 ≤ y ≤ Z.min (my + 25) height →
  skip width y = false →
  packCoord width y ∈ active (randomFill width height skip (mx, my) st)
  ∧ packCoord width y ∈ activeNext (randomFill width height skip (mx, my) st)
  ∧ ¬ encodesGridCell width height (packCoord width y)
  ∧ unpackCoord width height (packCoord width y) = (0, y mod height).
Proof.
  intros Hw Hh W Hmx Hy E.
  destruct (randomFill_views width height skip (mx, my) st W) as (_ & _ & EA & EN).
  assert (K : packCoord width y ∈ keyOf <$> fillCells width height skip (mx, my)).
  { apply elem_of_fill_keys. exists width, y. simpl. split; [lia |]. by split. }
  rewrite EA, EN, !elem_of_foldl_Set_add.
  split; [by left |]. split; [by left |]. split.
  - intros (a & b & Ha & Hb & Eq).
    apply packCoord_inj in Eq as [? _]; lia.
  - rewrite unpackCoord_packCoord, wrapCoord_mod by lia.
    by rewrite Z_mod_same_full.
Qed.

Lemma randomFill_right_edge_witness :
  packCoord 10 3 ∈ active (randomFill 10 10 (λ _ _, false) (8, 2) corner)
  ∧ packCoord 10 3 ∈ activeNext (randomFill 10 10 (λ _ _, false) (8, 2) corner)
  ∧ ¬ encodesGridCell 10 10 (packCoord 10 3)
  ∧ unpackCoord 10 10 (packCoord 10 3) = (0, 3 mod 10).
Proof.
  apply (randomFill_right_edge 10 10 (λ _ _, false) 8 2 3 corner);
    [lia | lia | split; vm_compute; lia | lia | lia | reflexivity].
Defined.

(** ** Pixels *)

(** The cell under a pixel of the canvas has an index from 0 to the grid
    size, the grid size itself included when the canvas dimension is not a
    multiple of the cell size: the last pixels then belong to a column that
    is not part of the grid. *)
Theorem mouseCell_range (canvasDim px : Z) :
  0 ≤ px < canvasDim →
  0 ≤ mouseCell px ≤ gridSize canvasDim
  ∧ (canvasDim mod CELL_SIZE = 0 → mouseCell px < gridSize canvasDim)
  ∧ (canvasDim mod CELL_SIZE ≠ 0 → mouseCell (canvasDim - 1) = gridSize canvasDim).
Proof.
  intros Hpx. unfold mouseCell, gridSize, CELL_SIZE.
  pose proof (Z.div_mod px 6 ltac:(lia)). pose proof (Z.mod_pos_bound px 6 ltac:(lia)).
  pose proof (Z.div_mod canvasDim 6 ltac:(lia)).
  pose proof (Z.mod_pos_bound canvasDim 6 ltac:(lia)).
  pose proof (Z.div_mod (canvasDim - 1) 6 ltac:(lia)).
  pose proof (Z.mod_pos_bound (canvasDim - 1) 6 ltac:(lia)).
  lia.
Qed.

Lemma mouseCell_range_witness :
  0 ≤ mouseCell 1534 ≤ gridSize 1535
  ∧ (1535 mod CELL_SIZE = 0 → mouseCell 1534 < gridSize 1535)
  ∧ (1535 mod CELL_SIZE ≠ 0 → mouseCell (1535 - 1) = gridSize 1535).
Proof. apply (mouseCell_range 1535 1534). lia. Defined.

(** [drawCells] fills one square per key of the current active set, each a
    whole cell that lies inside the canvas, whatever keys the set holds and
    whatever grid size they were stored under. *)
Theorem drawCells_inside_canvas (canvasWidth canvasHeight : Z) (st : state) :
  0 < gridSize canvasWidth → 0 < gridSize canvasHeight →
  length (drawCells (gridSize canvasWidth) (gridSize canvasHeight) st)
  = length (active st)
  ∧ ∀ rx ry rw rh,
      (rx, ry, rw, rh) ∈ drawCells (gridSize canvasWidth) (gridSize canvasHeight) st →
      rw = CELL_SIZE ∧ rh = CELL_SIZE
      ∧ 0 ≤ rx ∧ rx + rw ≤ canvasWidth ∧ rx mod CELL_SIZE = 0
      ∧ 0 ≤ ry ∧ ry + rh ≤ canvasHeight ∧ ry mod CELL_SIZE = 0.
Proof.
  intros Hw Hh. unfold drawCells. split; [apply length_fmap |].
  intros rx ry rw rh (cell & E & _)%list_elem_of_fmap.
  destruct (unpackCoord _ _ cell) as [x y] eqn:Eu.
  apply (unpackCoord_range _ _ Hw Hh) in Eu as [Hx Hy].
  injection E as -> -> -> ->.
  unfold gridSize, CELL_SIZE in *.
  pose proof (Z.mul_div_le canvasWidth 6 ltac:(lia)).
  pose proof (Z.mul_div_le canvasHeight 6 ltac:(lia)).
  rewrite !Z_mod_mult. lia.
Qed.

Lemma drawCells_inside_canvas_witness :
  length (drawCells (gridSize 61) (gridSize 45) (insertCell 10 0 corner))
  = length (active (insertCell 10 0 corner))
  ∧ ∀ rx ry rw rh,
      (rx, ry, rw, rh) ∈ drawCells (gridSize 61) (gridSize 45) (insertCell 10 0 corner) →
      rw = CELL_SIZE ∧ rh = CELL_SIZE
      ∧ 0 ≤ rx ∧ rx + rw ≤ 61 ∧ rx mod CELL_SIZE = 0
      ∧ 0 ≤ ry ∧ ry + rh ≤ 45 ∧ ry mod CELL_SIZE = 0.
Proof.
  apply (drawCells_inside_canvas 61 45 (insertCell 10 0 corner)); vm_compute; reflexivity.
Defined.

(** ** The states the program reaches *)

(** Whatever sequence of resets, insertions, pattern stamps and steps led to
    a state, its two active buffers are distinct allocated objects and
    neither is one of the potential buffers. *)
Theorem reachable_states_wf (width height : Z) (st : state) :
  0 < width → 0 < height → reachable width height st → wf st.
Proof. apply reachable_wf. Qed.

Lemma reachable_states_wf_witness : wf (insertCellPattern 2 2 ["##"%string] (resetGame initial)).
Proof.
  apply (reachable_states_wf 10 10); [lia | lia |].
  apply reach_pattern, reach_reset, reach_initial.
Defined.

(** ** How far the potential set can grow in one step *)

Lemma length_grid {A : Type} (f : Z → Z → A) (ys xs : list Z) :
  length (b ← ys; a ← xs; [f a b]) = (length ys * length xs)%nat.
Proof.
  induction ys as [| b ys IH]; [done |].
  rewrite bind_cons, List.length_app, IH. simpl. f_equal.
  clear IH. induction xs as [| a xs IH]; [done |].
  rewrite bind_cons, List.length_app, IH. done.
Qed.

Lemma length_candidates (width height : Z) :
  0 < width → 0 < height →
  length (candidates width height) = Z.to_nat ((width + 2) * (height + 2)).
Proof.
  intros Hw Hh. unfold candidates. rewrite length_grid, !length_seqZ.
  rewrite Z2Nat.inj_mul by lia. lia.
Qed.

(** One [simulate] appends at most [(width + 2) * (height + 2)] keys to the
    potential set, however many cells change; that number plus the size of
    the set at the call bounds the iterations of the loop. *)
Theorem simulate_growth_bound (width height : Z) (st : state) :
  0 < width → 0 < height → wf st →
  ∃ st',
    simulate width height st = Some st'
    ∧ (length (potentialNext st')
       ≤ length (potentialNext st) + Z.to_nat ((width + 2) * (height + 2)))%nat.
Proof.
  intros Hw Hh W. pose proof (promote_looping st W) as L.
  destruct (forOf_spec width height Hw Hh (promote st) (gas width height st) L 0%nat
              (promote st) _ (Inv_refl width height (promote st)))
    as (st2 & N' & Hrun & I & _ & _).
  { lia. }
  { rewrite potentialNext_promote by done. unfold gas. lia. }
  exists (bump st2). split.
  { unfold simulate, simulateFuel. by rewrite Hrun. }
  change (potentialNext (bump st2)) with (potentialNext st2).
  pose proof (Inv_potential_length width height (promote st) st2 N' L I) as B.
  rewrite (Inv_potential_alias width height _ _ _ L I) in B.
  rewrite potentialNext_promote, length_candidates in B by done. exact B.
Qed.

Lemma simulate_growth_bound_witness :
  ∃ st',
    simulate 10 10 corner = Some st'
    ∧ (length (potentialNext st')
       ≤ length (potentialNext corner) + Z.to_nat ((10 + 2) * (10 + 2)))%nat.
Proof.
  apply (simulate_growth_bound 10 10 corner); [lia | lia | split; vm_compute; lia].
Defined.
